(** * flugo: the background job queue (package [queue])

    A shallow embedding of the in-process job queue of the flugo framework
    ([NewQueue], [RegisterHandler], [Start], [Stop], [Push], [Size],
    [GetStats], the [worker] loop and [processJob]) and the properties of
    its retry logic, its counters and its bounded channel.

    The development also covers the package-level helpers around the
    default queue, the built-in handlers, and the part of the email service
    (package [email]) that does not depend on the SMTP client.

    The first part is the model, the second its properties. The model gives
    [processJob] twice over, from the same pieces: as a function from the
    queue and the job a worker has received to the outcome of the call, and
    as the steps of a worker among the other workers of the pool. The life
    of a job across its retries is given twice as well: as the sequence of
    its dispatches, where the queue each dispatch finds is left to the rest
    of the program, and as a run of the pool, in which workers take the job
    through [processJob] step by step among the steps of the others.

    Conventions of the embedding:
    - Go's [int] and [int64] are integers of [Z] with the 64-bit
      two's-complement wrap-around written out ([wrap64]); the build is
      taken to be a 64-bit one, where [int] is 64 bits wide.
    - A [time.Time] is a number of nanoseconds ([Z]); a [time.Duration] is an
      [int64] of nanoseconds.
    - [error] is [option string]: [None] is [nil].
    - A buffered channel is its FIFO buffer, its capacity and its closed flag;
      a non-blocking send on a closed channel panics, as in Go.
    - A job travels by pointer, and one holder has it at a time (the
      channel, or the worker that received it): the model passes the
      record along.
    - The mutex [mu] only serialises the accesses to [stats] and [handlers];
      each locked region is one atomic step of the model.
    - A slice is a window on a backing array of the heap; [append] writes
      into the array when the capacity allows, and slices on one array
      share what is written.
    - Calls to the logger change nothing the queue can observe and are
      left out. *)

From Stdlib Require Import ZArith String List Lia Bool.
From stdpp Require Import base gmap strings list pretty.

Open Scope Z_scope.

(** ** Machine integers *)

Definition wrap64 (x : Z) : Z := (x + 2 ^ 63) mod 2 ^ 64 - 2 ^ 63.

Definition min_int : Z := - 2 ^ 63.
Definition max_int : Z := 2 ^ 63 - 1.

(** [is_int x]: [x] is a value of Go's [int] (and of [int64]). *)
Definition is_int (x : Z) : Prop := min_int <= x <= max_int.

(** [x++] and [x--] *)
Definition incr (x : Z) : Z := wrap64 (x + 1).
Definition decr (x : Z) : Z := wrap64 (x - 1).

(** [x * y] *)
Definition mul64 (x y : Z) : Z := wrap64 (x * y).

(** ** Time *)

Definition Time := Z.
Definition Duration := Z.

Definition Millisecond : Duration := 1000000.
Definition Second : Duration := 1000000000.

(** [time.Sleep d] called when the clock of the runtime shows [t]: it
    returns at once when [d <= 0]; otherwise the runtime sets the wake-up
    time to [t + d] in [int64], and to the last instant of its clock when
    the sum has left [int64]. [sleep_time t d] is the time the caller is
    paused. *)
Definition sleep_time (t : Time) (d : Duration) : Duration :=
  if d <=? 0 then 0
  else let when := wrap64 (t + d) in
       (if when <? 0 then max_int else when) - t.

(** ** Jobs *)

Inductive JobStatus : Type :=
  | StatusPending
  | StatusProcessing
  | StatusCompleted
  | StatusFailed
  | StatusRetrying.

Definition status_string (s : JobStatus) : string :=
  match s with
  | StatusPending => "pending"
  | StatusProcessing => "processing"
  | StatusCompleted => "completed"
  | StatusFailed => "failed"
  | StatusRetrying => "retrying"
  end.

(** The values of a payload ([interface{}]), as far as the built-in handlers
    look at them. *)
Inductive Value : Type :=
  | VNil
  | VString (s : string)
  | VNumber (n : Z)
  | VBool (b : bool).

Record Job : Type := mkJob {
  ID : string;
  Type_ : string;
  Payload : gmap string Value;
  Attempts : Z;
  MaxRetry : Z;
  CreatedAt : Time;
  UpdatedAt : Time;
  Status : JobStatus;
  Error : string
}.

Definition set_Status (s : JobStatus) (j : Job) : Job :=
  mkJob (ID j) (Type_ j) (Payload j) (Attempts j) (MaxRetry j)
        (CreatedAt j) (UpdatedAt j) s (Error j).

Definition set_UpdatedAt (t : Time) (j : Job) : Job :=
  mkJob (ID j) (Type_ j) (Payload j) (Attempts j) (MaxRetry j)
        (CreatedAt j) t (Status j) (Error j).

Definition set_Attempts (a : Z) (j : Job) : Job :=
  mkJob (ID j) (Type_ j) (Payload j) a (MaxRetry j)
        (CreatedAt j) (UpdatedAt j) (Status j) (Error j).

Definition set_Error (e : string) (j : Job) : Job :=
  mkJob (ID j) (Type_ j) (Payload j) (Attempts j) (MaxRetry j)
        (CreatedAt j) (UpdatedAt j) (Status j) e.

(** ** Handlers

    [type JobHandler func(job *Job) error]. A call of a handler either
    returns an [error] or panics, and takes some time. Handlers are taken
    to read the job record only. *)

Inductive HandlerResult : Type :=
  | HReturn (err : option string)
  | HPanic (v : string).

Record HandlerRun : Type := mkRun {
  h_result : HandlerResult;
  h_elapsed : Duration
}.

Abbreviation JobHandler := (Job -> HandlerRun).

(** ** The bounded channel [chan *Job] *)

Record Chan : Type := mkChan {
  buf : list Job;
  cap : nat;
  closed : bool
}.

Definition make_chan (n : nat) : Chan := mkChan [] n false.

(** [len(c)] *)
Definition chan_len (c : Chan) : Z := Z.of_nat (length (buf c)).

(** [select { case c <- j: ... default: ... }] *)
Inductive SendResult : Type :=
  | Sent (c : Chan)
  | WouldBlock
  | SendPanic.

Definition try_send (c : Chan) (j : Job) : SendResult :=
  if closed c then SendPanic
  else if (length (buf c) <? cap c)%nat
       then Sent (mkChan (buf c ++ [j]) (cap c) (closed c))
       else WouldBlock.

(** [job := <-c]: the oldest buffered job, [nil] from a closed and drained
    channel, or nothing yet. *)
Inductive RecvResult : Type :=
  | Received (j : Job) (c : Chan)
  | ReceivedNil
  | RecvBlock.

Definition try_recv (c : Chan) : RecvResult :=
  match buf c with
  | j :: rest => Received j (mkChan rest (cap c) (closed c))
  | [] => if closed c then ReceivedNil else RecvBlock
  end.

(** ** The queue *)

Record QueueStats : Type := mkStats {
  Processed : Z;
  Failed : Z;
  Retried : Z;
  Active : Z
}.

Record Queue : Type := mkQueue {
  name : string;
  jobs : Chan;
  handlers : gmap string JobHandler;
  workers : Z;
  cancelled : bool;
  stats : QueueStats
}.

Definition set_jobs (c : Chan) (q : Queue) : Queue :=
  mkQueue (name q) c (handlers q) (workers q) (cancelled q) (stats q).

Definition set_stats (s : QueueStats) (q : Queue) : Queue :=
  mkQueue (name q) (jobs q) (handlers q) (workers q) (cancelled q) s.

(** [q.stats.Processed++] and the like, each under [q.mu]. *)
Definition inc_Processed (q : Queue) : Queue :=
  let s := stats q in
  set_stats (mkStats (incr (Processed s)) (Failed s) (Retried s) (Active s)) q.

Definition inc_Failed (q : Queue) : Queue :=
  let s := stats q in
  set_stats (mkStats (Processed s) (incr (Failed s)) (Retried s) (Active s)) q.

Definition inc_Retried (q : Queue) : Queue :=
  let s := stats q in
  set_stats (mkStats (Processed s) (Failed s) (incr (Retried s)) (Active s)) q.

Definition inc_Active (q : Queue) : Queue :=
  let s := stats q in
  set_stats (mkStats (Processed s) (Failed s) (Retried s) (incr (Active s))) q.

Definition dec_Active (q : Queue) : Queue :=
  let s := stats q in
  set_stats (mkStats (Processed s) (Failed s) (Retried s) (decr (Active s))) q.

Definition NewQueue (nm : string) (n : Z) : Queue :=
  mkQueue nm (make_chan 1000) ∅ n false (mkStats 0 0 0 0).

Definition RegisterHandler (jobType : string) (handler : JobHandler)
    (q : Queue) : Queue :=
  mkQueue (name q) (jobs q) (<[jobType := handler]> (handlers q))
          (workers q) (cancelled q) (stats q).

(** [GetStats] returns a copy of the counters. *)
Definition GetStats (q : Queue) : QueueStats :=
  mkStats (Processed (stats q)) (Failed (stats q))
          (Retried (stats q)) (Active (stats q)).

Definition Size (q : Queue) : Z := chan_len (jobs q).

(** A call either returns or panics. *)
Inductive Ret (A : Type) : Type :=
  | Normal (a : A)
  | Panic (v : string).
Arguments Normal {A} a.
Arguments Panic {A} v.

(** [Stop]: cancel the context, then [close(q.jobs)]; closing a closed
    channel panics. *)
Definition Stop (q : Queue) : Ret Queue :=
  if closed (jobs q)
  then Panic "close of closed channel"
  else Normal (mkQueue (name q) (mkChan (buf (jobs q)) (cap (jobs q)) true)
                       (handlers q) (workers q) true (stats q)).

(** ** Push *)

Definition generateJobID (now : Time) : string := "job_" +:+ pretty now.

(** The record [Push] builds; [t_id], [t_created] and [t_updated] are its
    three readings of the clock. *)
Definition new_job (t_id t_created t_updated : Time) (jobType : string)
    (payload : gmap string Value) (maxRetry : Z) : Job :=
  {| ID := generateJobID t_id;
     Type_ := jobType;
     Payload := payload;
     Attempts := 0;
     MaxRetry := maxRetry;
     CreatedAt := t_created;
     UpdatedAt := t_updated;
     Status := StatusPending;
     Error := "" |}.

Definition Push (t_id t_created t_updated : Time) (jobType : string)
    (payload : gmap string Value) (maxRetry : Z) (q : Queue)
    : Ret (Queue * option string) :=
  let job := new_job t_id t_created t_updated jobType payload maxRetry in
  match try_send (jobs q) job with
  | Sent c => Normal (set_jobs c q, None)
  | WouldBlock => Normal (q, Some "queue is full")
  | SendPanic => Panic "send on closed channel"
  end.

(** ** processJob

    The pieces of [processJob], in the order of the source; [processJob]
    below runs them in sequence, and the worker pool of the last part of
    the development runs the same pieces one step at a time. *)

(** [job.Status = StatusProcessing; job.UpdatedAt = time.Now(); job.Attempts++] *)
Definition mark_processing (now : Time) (job : Job) : Job :=
  set_Attempts (incr (Attempts job))
    (set_UpdatedAt now (set_Status StatusProcessing job)).

(** The branch [if !exists]. *)
Definition no_handler (q : Queue) (job : Job) : Queue * Job :=
  (inc_Failed q,
   set_Error ("no handler registered for job type: " +:+ Type_ job)
     (set_Status StatusFailed job)).

(** [time.Duration(job.Attempts*job.Attempts) * time.Second] *)
Definition backoff (job : Job) : Duration :=
  mul64 (mul64 (Attempts job) (Attempts job)) Second.

(** What follows the return of the handler, up to the call of [time.Sleep]. *)
Inductive Settled : Type :=
  | Done (q : Queue) (job : Job)
  | Backoff (job : Job) (delay : Duration)
  | Panicked (v : string).

Definition settle (t : Time) (q : Queue) (job : Job) (r : HandlerResult)
    : Settled :=
  match r with
  | HPanic v => Panicked v
  | HReturn (Some err) =>
      let job := set_Error err job in
      if Attempts job <? MaxRetry job
      then let job := set_Status StatusRetrying job in
           Backoff job (backoff job)
      else Done (inc_Failed q) (set_Status StatusFailed job)
  | HReturn None =>
      Done (inc_Processed q)
           (set_UpdatedAt t (set_Status StatusCompleted job))
  end.

(** The [select] after the sleep. *)
Inductive Requeued : Type :=
  | ReqSent (q : Queue)
  | ReqFull (q : Queue) (job : Job)
  | ReqPanic (v : string).

Definition requeue (q : Queue) (job : Job) : Requeued :=
  match try_send (jobs q) job with
  | Sent c => ReqSent (inc_Retried (set_jobs c q))
  | WouldBlock => ReqFull (inc_Failed q) (set_Status StatusFailed job)
  | SendPanic => ReqPanic "send on closed channel"
  end.

(** The job record when the handler has returned [err] and a retry is due. *)
Definition retrying (now : Time) (job : Job) (err : string) : Job :=
  set_Status StatusRetrying (set_Error err (mark_processing now job)).

(** How a call of [processJob] ends. *)
Inductive Exit : Type :=
  | ExitReturn
  | ExitPanic (v : string).

(** What one call of [processJob] did:
    - [o_queue]: the queue after the call (the deferred [Active--] included);
    - [o_job]: the job record after the call;
    - [o_invoked]: the handler was called;
    - [o_slept]: the argument of [time.Sleep], when it was called;
    - [o_requeued]: the job was sent back to the channel;
    - [o_exit]: the call returned, or a panic left it;
    - [o_at]: the time of the last assignment to [job.Status]. *)
Record Outcome : Type := mkOutcome {
  o_queue : Queue;
  o_job : Job;
  o_invoked : bool;
  o_slept : option Duration;
  o_requeued : bool;
  o_exit : Exit;
  o_at : Time
}.

Definition processJob (now : Time) (q : Queue) (job : Job) : Outcome :=
  let q := inc_Active q in
  (* defer: Active-- runs on every way out, [dec_Active] below *)
  let job := mark_processing now job in
  match handlers q !! Type_ job with
  | None =>
      let '(q, job) := no_handler q job in
      mkOutcome (dec_Active q) job false None false ExitReturn now
  | Some handler =>
      let run := handler job in
      let t := now + h_elapsed run in
      match settle t q job (h_result run) with
      | Panicked v =>
          mkOutcome (dec_Active q) job true None false (ExitPanic v) now
      | Done q job =>
          mkOutcome (dec_Active q) job true None false ExitReturn t
      | Backoff job delay =>
          match requeue q job with
          | ReqSent q =>
              mkOutcome (dec_Active q) job true (Some delay) true ExitReturn t
          | ReqFull q job =>
              mkOutcome (dec_Active q) job true (Some delay) false ExitReturn
                        (t + sleep_time t delay)
          | ReqPanic v =>
              mkOutcome (dec_Active q) job true (Some delay) false
                        (ExitPanic v) t
          end
      end
  end.

(** ** The life of one job

    A job is dispatched again and again as long as it is sent back to the
    channel. Between two dispatches the rest of the program (the other
    workers, the callers of [Push] and [RegisterHandler]) changes the queue:
    [d_queue] is the queue a dispatch finds, [d_now] its clock. *)
Record Dispatch : Type := mkDispatch {
  d_now : Time;
  d_queue : Queue
}.

Fixpoint lifecycle (ds : list Dispatch) (job : Job)
    : list (Dispatch * Outcome) :=
  match ds with
  | [] => []
  | d :: ds =>
      let o := processJob (d_now d) (d_queue d) job in
      (d, o) :: (if o_requeued o then lifecycle ds (o_job o) else [])
  end.

(** What a dispatch added to a counter [f] of the statistics: the counter
    after the call less the counter the dispatch found, in [int64]. *)
Definition added (f : QueueStats -> Z) (r : Dispatch * Outcome) : Z :=
  wrap64 (f (stats (o_queue r.2)) - f (stats (d_queue r.1))).





(** ** The worker pool

    [worker] is a loop around a [select]; the pool is [q.workers] such loops
    running at once. A worker is at one of the following places. *)
Inductive WorkerPC : Type :=
  | WIdle                                      (* at the [select] *)
  | WReceived (job : Job)                      (* got a job, about to call [processJob] *)
  | WEntered (job : Job)                       (* after [Active++] *)
  | WInvoking (job : Job) (handler : JobHandler) (* in [handler(job)] *)
  | WSleeping (job : Job) (delay : Duration)   (* in [time.Sleep(delay)] *)
  | WLeaving (job : Job) (e : Exit)            (* body over, the deferred function is next *)
  | WStopped.                                  (* returned from [worker] *)

(** One step of a worker that does not end in a panic leaving [worker].
    The clock readings [now] and [t] are whatever the clock shows. *)
Inductive worker_step : Queue -> WorkerPC -> Queue -> WorkerPC -> Prop :=
  | ws_receive q job c :
      try_recv (jobs q) = Received job c ->
      worker_step q WIdle (set_jobs c q) (WReceived job)
  | ws_nil q :
      try_recv (jobs q) = ReceivedNil ->
      worker_step q WIdle q WStopped
  | ws_cancel q :
      cancelled q = true ->
      worker_step q WIdle q WStopped
  | ws_enter q job :
      worker_step q (WReceived job) (inc_Active q) (WEntered job)
  | ws_no_handler q job now q' job' :
      handlers q !! Type_ (mark_processing now job) = None ->
      no_handler q (mark_processing now job) = (q', job') ->
      worker_step q (WEntered job) q' (WLeaving job' ExitReturn)
  | ws_invoke q job now h :
      handlers q !! Type_ (mark_processing now job) = Some h ->
      worker_step q (WEntered job) q (WInvoking (mark_processing now job) h)
  | ws_done q job h t q' job' :
      settle t q job (h_result (h job)) = Done q' job' ->
      worker_step q (WInvoking job h) q' (WLeaving job' ExitReturn)
  | ws_backoff q job h t job' delay :
      settle t q job (h_result (h job)) = Backoff job' delay ->
      worker_step q (WInvoking job h) q (WSleeping job' delay)
  | ws_panic q job h t v :
      settle t q job (h_result (h job)) = Panicked v ->
      worker_step q (WInvoking job h) q (WLeaving job (ExitPanic v))
  | ws_requeue q job delay q' :
      requeue q job = ReqSent q' ->
      worker_step q (WSleeping job delay) q' (WLeaving job ExitReturn)
  | ws_full q job delay q' job' :
      requeue q job = ReqFull q' job' ->
      worker_step q (WSleeping job delay) q' (WLeaving job' ExitReturn)
  | ws_closed q job delay v :
      requeue q job = ReqPanic v ->
      worker_step q (WSleeping job delay) q (WLeaving job (ExitPanic v))
  | ws_leave q job :
      worker_step q (WLeaving job ExitReturn) (dec_Active q) WIdle.

(** The program: the queue, its workers, and whether a panic has ended it.
    Nothing in [worker] or [processJob] recovers from a panic, so a panic
    that leaves [processJob] leaves the goroutine and ends the program.

    The steps of the program are the steps of its workers and the calls of
    [Push] (by a producer, or by the goroutine [PushDelay] starts),
    [RegisterHandler] and [Stop]. A call of [Push] or [Stop] that panics
    leaves the queue as it was. Nothing in the package recovers from it:
    the goroutine of [PushDelay] calls [Push] bare, and the panic ends the
    program. (A caller of its own that recovers goes on from the same
    state, which takes no step.) *)
Record System : Type := mkSystem {
  sys_queue : Queue;
  sys_pool : list WorkerPC;
  sys_crashed : bool
}.

Inductive step : System -> System -> Prop :=
  | step_worker s i pc q' pc' :
      sys_crashed s = false ->
      sys_pool s !! i = Some pc ->
      worker_step (sys_queue s) pc q' pc' ->
      step s (mkSystem q' (<[i := pc']> (sys_pool s)) false)
  | step_panic s i job v :
      sys_crashed s = false ->
      sys_pool s !! i = Some (WLeaving job (ExitPanic v)) ->
      step s (mkSystem (dec_Active (sys_queue s))
                       (<[i := WStopped]> (sys_pool s)) true)
  | step_push s t_id t_created t_updated jobType payload maxRetry q' err :
      sys_crashed s = false ->
      Push t_id t_created t_updated jobType payload maxRetry (sys_queue s)
        = Normal (q', err) ->
      step s (mkSystem q' (sys_pool s) false)
  | step_register s jobType handler :
      sys_crashed s = false ->
      step s (mkSystem (RegisterHandler jobType handler (sys_queue s))
                       (sys_pool s) false)
  | step_stop s q' :
      sys_crashed s = false ->
      Stop (sys_queue s) = Normal q' ->
      step s (mkSystem q' (sys_pool s) false)
  | step_push_panic s t_id t_created t_updated jobType payload maxRetry v :
      sys_crashed s = false ->
      Push t_id t_created t_updated jobType payload maxRetry (sys_queue s)
        = Panic v ->
      step s (mkSystem (sys_queue s) (sys_pool s) true)
  | step_stop_panic s v :
      sys_crashed s = false ->
      Stop (sys_queue s) = Panic v ->
      step s (mkSystem (sys_queue s) (sys_pool s) true).

(** [Start] starts worker [i] for [0 <= i < q.workers], each at its
    [select]. *)
Definition Start (s : System) : System :=
  mkSystem (sys_queue s)
           (sys_pool s ++ replicate (Z.to_nat (workers (sys_queue s))) WIdle)
           (sys_crashed s).

(** [Init]: [NewQueue] then [Start]. *)
Definition Init (nm : string) (n : Z) : System :=
  Start (mkSystem (NewQueue nm n) [] false).

Definition reachable (nm : string) (n : Z) (s : System) : Prop :=
  rtc step (Init nm n) s.

(** A worker is inside [processJob] from [Active++] to the deferred
    [Active--]; it executes a handler while it is in [handler(job)]. *)
Definition in_processJob (pc : WorkerPC) : bool :=
  match pc with
  | WEntered _ | WInvoking _ _ | WSleeping _ _ | WLeaving _ _ => true
  | WIdle | WReceived _ | WStopped => false
  end.

Definition in_handler (pc : WorkerPC) : bool :=
  match pc with
  | WInvoking _ _ => true
  | _ => false
  end.

Definition count_pool (p : WorkerPC -> bool) (pool : list WorkerPC) : Z :=
  Z.of_nat (length (filter (fun pc => p pc = true) pool)).

(** The steps of one worker left to itself. *)
Definition solo (a b : Queue * WorkerPC) : Prop :=
  worker_step a.1 a.2 b.1 b.2.

(** The channel made by [NewQueue]: capacity 1000, never over-full. *)
Definition chan_ok (c : Chan) : Prop :=
  cap c = 1000%nat /\ (length (buf c) <= cap c)%nat.

(** The invariant of the pool started by [Init nm n]. *)
Definition pool_inv (n : Z) (s : System) : Prop :=
  Active (stats (sys_queue s)) = count_pool in_processJob (sys_pool s) /\
  length (sys_pool s) = Z.to_nat n.

(** ** The life of a job in the pool

    A job waits in the buffer until a worker at its [select] finds it at
    the head and receives it. The worker then goes through [processJob]
    one step at a time, and between two of its steps the rest of the
    program (the other workers, the producers, the callers of
    [RegisterHandler] and [Stop]) takes steps of its own. When the worker
    has sent the job back to the channel, the job waits again. *)

(** Where the job is. *)
Inductive Place : Type :=
  | Waiting (job : Job)   (* in the channel *)
  | Running (i : nat)     (* with worker [i], inside the body of [processJob] *)
  | Ended (job : Job).    (* the body of [processJob] is over, the job was not sent back *)

(** A step a worker takes on the job: the queue and the place of the
    worker before and after it, as in [worker_step]. *)
Record Act : Type := mkAct {
  a_queue : Queue;
  a_pc : WorkerPC;
  a_queue' : Queue;
  a_pc' : WorkerPC
}.

(** Where the job is after a step of worker [i] on it: still with the
    worker, back in the channel when the step was the [select] that sent
    it, at its end when the body of [processJob] is over otherwise. *)
Definition place_after (i : nat) (a : Act) : Place :=
  match a_pc' a with
  | WLeaving job _ =>
      match a_pc a with
      | WSleeping job0 _ =>
          match requeue (a_queue a) job0 with
          | ReqSent _ => Waiting job
          | _ => Ended job
          end
      | _ => Ended job
      end
  | _ => Running i
  end.

(** One step of the program as the job sees it, with the steps taken on
    the job:
    - a step that leaves the worker holding the job where it is: a step of
      somebody else;
    - a worker at its [select] receives the job from the head of the
      buffer;
    - the worker holding the job takes a step. *)
Inductive move : Place * System -> list Act -> Place * System -> Prop :=
  | move_other p s s' :
      step s s' ->
      (forall i, p = Running i -> sys_pool s' !! i = sys_pool s !! i) ->
      move (p, s) [] (p, s')
  | move_receive job s i c :
      sys_crashed s = false ->
      sys_pool s !! i = Some WIdle ->
      try_recv (jobs (sys_queue s)) = Received job c ->
      move (Waiting job, s)
           [mkAct (sys_queue s) WIdle (set_jobs c (sys_queue s)) (WReceived job)]
           (Running i,
            mkSystem (set_jobs c (sys_queue s))
                     (<[i := WReceived job]> (sys_pool s)) false)
  | move_own i s pc q' pc' :
      sys_crashed s = false ->
      sys_pool s !! i = Some pc ->
      worker_step (sys_queue s) pc q' pc' ->
      move (Running i, s)
           [mkAct (sys_queue s) pc q' pc']
           (place_after i (mkAct (sys_queue s) pc q' pc'),
            mkSystem q' (<[i := pc']> (sys_pool s)) false).

(** A run of the program, with the steps taken on the job in order. *)
Inductive run : Place * System -> list Act -> Place * System -> Prop :=
  | run_refl x : run x [] x
  | run_step x tr1 y tr2 z :
      move x tr1 y -> run y tr2 z -> run x (tr1 ++ tr2) z.











Section Expected.

Variables (jobType : string) (K M : Z).






End Expected.

(** ** Sample handlers and queues

    [send_email] is the first of the built-in handlers of the package; the
    others are the handlers of the scenarios of the design document. *)

(** [s, _ := job.Payload[key].(string)] *)
Definition payload_string (job : Job) (key : string) : string :=
  match Payload job !! key with
  | Some (VString s) => s
  | _ => ""
  end.

Definition send_email : JobHandler := fun job =>
  let to := payload_string job "to" in
  let subject := payload_string job "subject" in
  if (String.eqb to "" || String.eqb subject "")%bool
  then mkRun (HReturn (Some "missing required email parameters")) 0
  else mkRun (HReturn None) (100 * Millisecond).

Definition handler_noop : JobHandler := fun _ =>
  mkRun (HReturn None) 0.

Definition handler_always_fail : JobHandler := fun _ =>
  mkRun (HReturn (Some "always fails")) (5 * Millisecond).

Definition handler_panic : JobHandler := fun _ =>
  mkRun (HPanic "boom") 0.

(** Fails on the first [n] attempts of a job and succeeds afterwards. *)
Definition handler_flaky (n : Z) : JobHandler := fun job =>
  if Attempts job <=? n
  then mkRun (HReturn (Some "not yet")) Millisecond
  else mkRun (HReturn None) Millisecond.

Definition sample_queue : Queue :=
  RegisterHandler "send_email" send_email
   (RegisterHandler "flaky" (handler_flaky 2)
    (RegisterHandler "panic" handler_panic
       (RegisterHandler "always_fail" handler_always_fail
          (RegisterHandler "noop" handler_noop (NewQueue "default" 2))))).

(** The payload of [SendEmailAsync to subject body]. *)
Definition email_payload (to subject body : string) : gmap string Value :=
  <["to" := VString to]>
    (<["subject" := VString subject]> (<["body" := VString body]> ∅)).

(** A queue whose buffer holds [cap] jobs. *)
Definition full_queue : Queue :=
  set_jobs (mkChan (replicate 1000 (new_job 0 0 0 "noop" ∅ 3)) 1000 false)
           sample_queue.

(** [sample_queue] after [Stop]. *)
Definition stopped_queue : Queue :=
  mkQueue (name sample_queue) (mkChan [] 1000 true) (handlers sample_queue)
          (workers sample_queue) true (stats sample_queue).

(** ** Sample states of the pool *)

(** A worker in its backoff sleep: the pool of one worker, after a handler
    was registered for "always_fail", a job of that type was pushed with
    maxRetry = 3, and the worker took it, called the handler and got an
    error back. *)
Definition backoff_job : Job :=
  retrying 10 (new_job 1 2 3 "always_fail" ∅ 3) "always fails".

Definition backoff_state : System :=
  mkSystem
    (inc_Active
       (RegisterHandler "always_fail" handler_always_fail
          (NewQueue "default" 1)))
    [WSleeping backoff_job Second] false.

(** The pool of one worker after a handler that panics was registered for
    "panic", two jobs of that type were pushed, and the worker took the
    first and called the handler: the second job is still in the buffer. *)
Definition waiting_job : Job := new_job 4 5 6 "panic" ∅ 3.

Definition crashed_state : System :=
  mkSystem
    (set_jobs (mkChan [waiting_job] 1000 false)
       (RegisterHandler "panic" handler_panic (NewQueue "default" 1)))
    [WStopped] true.

(** ** The built-in handlers and the package-level helpers

    The package keeps one queue in the variable [DefaultQueue] and has a
    helper for each method that works on it. The variable is part of the
    state of the program: [None] is [nil]. The handlers below are the ones
    [init] registers, after [send_email]; what they write to the log is
    left out, and the time they take is the time they sleep. *)

Definition image_process : JobHandler := fun job =>
  let imagePath := payload_string job "image_path" in
  if String.eqb imagePath ""
  then mkRun (HReturn (Some "image_path is required")) 0
  else mkRun (HReturn None) (500 * Millisecond).

Definition data_export : JobHandler := fun _ =>
  mkRun (HReturn None) (2 * Second).

Definition webhook_call : JobHandler := fun job =>
  let url := payload_string job "url" in
  if String.eqb url ""
  then mkRun (HReturn (Some "webhook URL is required")) 0
  else mkRun (HReturn None) (200 * Millisecond).

Definition notification : JobHandler := fun _ =>
  mkRun (HReturn None) (100 * Millisecond).

Module Package.

(** [RegisterHandler] does nothing while [DefaultQueue] is [nil]. *)
Definition RegisterHandler (jobType : string) (handler : JobHandler)
    (dq : option Queue) : option Queue :=
  match dq with
  | Some q => Some (RegisterHandler jobType handler q)
  | None => None
  end.

Definition PushWithRetry (t_id t_created t_updated : Time)
    (jobType : string) (payload : gmap string Value) (maxRetry : Z)
    (dq : option Queue) : Ret (option Queue * option string) :=
  match dq with
  | None => Normal (None, Some "queue not initialized")
  | Some q =>
      match Push t_id t_created t_updated jobType payload maxRetry q with
      | Normal (q', err) => Normal (Some q', err)
      | Panic v => Panic v
      end
  end.

Definition Push (t_id t_created t_updated : Time) (jobType : string)
    (payload : gmap string Value) (dq : option Queue)
    : Ret (option Queue * option string) :=
  PushWithRetry t_id t_created t_updated jobType payload 3 dq.

Definition GetStats (dq : option Queue) : QueueStats :=
  match dq with
  | None => mkStats 0 0 0 0
  | Some q => GetStats q
  end.

(** [func init()]: the five registrations, in the order of the source. *)
Definition init (dq : option Queue) : option Queue :=
  RegisterHandler "notification" notification
    (RegisterHandler "webhook_call" webhook_call
       (RegisterHandler "data_export" data_export
          (RegisterHandler "image_process" image_process
             (RegisterHandler "send_email" send_email dq)))).

(** [Init] makes a new queue named "default", whatever [DefaultQueue] held,
    and starts its workers: the pool is [Init "default" workers] above. *)
Definition Init (workers : Z) (dq : option Queue) : option Queue :=
  Some (sys_queue (Init "default" workers)).

Definition SendEmailAsync (t_id t_created t_updated : Time)
    (to subject body : string) (dq : option Queue)
    : Ret (option Queue * option string) :=
  Push t_id t_created t_updated "send_email"
       (email_payload to subject body) dq.

Definition ProcessImageAsync (t_id t_created t_updated : Time)
    (imagePath operation : string) (dq : option Queue)
    : Ret (option Queue * option string) :=
  Push t_id t_created t_updated "image_process"
       (<["image_path" := VString imagePath]>
          (<["operation" := VString operation]> ∅)) dq.

End Package.

(** ** The email service (package [email])

    The SMTP client ([net/smtp]) is outside the repository: [smtp.SendMail]
    is a parameter [net], which answers a call, given the calls made before
    it, with an error or [nil]. The state of the world is the list of the
    calls made so far. A message is the string of its bytes. Go leaves the
    order in which [range] visits a map open; the custom headers are written
    in the order of [map_to_list]. *)

Module Email.

Record EmailConfig : Type := mkEmailConfig {
  SMTPHost : string;
  SMTPPort : Z;
  Username : string;
  Password : string;
  FromEmail : string;
  FromName : string;
  ReplyTo : string;
  EnableSSL : bool;
  EnableAuth : bool
}.

Record Attachment : Type := mkAttachment {
  Filename : string;
  Content : string;
  MimeType : string
}.

(** A Go slice of strings is a window on a backing array: the array, the
    offset of the window in it, the length of the window, and its capacity
    (the room from the offset on that [append] may use). The arrays live
    in the heap; two slices on the same array share its elements. *)
Record Slice : Type := mkSlice {
  s_arr : nat;
  s_off : nat;
  s_len : nat;
  s_cap : nat
}.

Abbreviation Heap := (list (list string)).

(** The [nil] slice. *)
Definition nil_slice : Slice := mkSlice 0 0 0 0.

Definition array (h : Heap) (s : Slice) : list string :=
  default [] (h !! s_arr s).

(** The elements of a slice. *)
Definition elems (h : Heap) (s : Slice) : list string :=
  take (s_len s) (drop (s_off s) (array h s)).

(** The window fits its array. *)
Definition valid (h : Heap) (s : Slice) : Prop :=
  (s_len s <= s_cap s)%nat /\ (s_off s + s_cap s <= length (array h s))%nat.

Record Email : Type := mkEmail {
  To : Slice;
  CC : Slice;
  BCC : Slice;
  Subject : string;
  Body : string;
  HTMLBody : string;
  Attachments : list Attachment;
  Headers : gmap string string
}.

(** [smtp.PlainAuth(identity, username, password, host)] *)
Inductive Auth : Type :=
  | PlainAuth (identity username password host : string).

Record EmailService : Type := mkEmailService {
  config : EmailConfig;
  auth : option Auth
}.

Definition NewEmailService (cfg : EmailConfig) : EmailService :=
  mkEmailService cfg
    (if EnableAuth cfg
     then Some (PlainAuth "" (Username cfg) (Password cfg) (SMTPHost cfg))
     else None).

Definition CRLF : string :=
  String (Ascii.ascii_of_nat 13) (String (Ascii.ascii_of_nat 10) "").

Definition buildMessage (es : EmailService) (h : Heap) (email : Email)
    : string :=
  let cfg := config es in
  ("From: " +:+ FromName cfg +:+ " <" +:+ FromEmail cfg +:+ ">" +:+ CRLF)
  +:+ ("To: " +:+ String.concat ", " (elems h (To email)) +:+ CRLF)
  +:+ (if (0 <? s_len (CC email))%nat
       then "CC: " +:+ String.concat ", " (elems h (CC email)) +:+ CRLF
       else "")
  +:+ (if String.eqb (ReplyTo cfg) ""
       then ""
       else "Reply-To: " +:+ ReplyTo cfg +:+ CRLF)
  +:+ ("Subject: " +:+ Subject email +:+ CRLF)
  +:+ foldr (fun kv acc => kv.1 +:+ ": " +:+ kv.2 +:+ CRLF +:+ acc) ""
            (map_to_list (Headers email))
  +:+ ("MIME-Version: 1.0" +:+ CRLF)
  +:+ (if String.eqb (HTMLBody email) ""
       then "Content-Type: text/plain; charset=UTF-8" +:+ CRLF +:+ CRLF
            +:+ Body email
       else "Content-Type: text/html; charset=UTF-8" +:+ CRLF +:+ CRLF
            +:+ HTMLBody email).

(** A call of [smtp.SendMail(addr, auth, from, to, msg)]; [sm_to] is what
    the slice [to] holds when the call is made. *)
Record SendMailCall : Type := mkSendMailCall {
  sm_addr : string;
  sm_auth : option Auth;
  sm_from : string;
  sm_to : list string;
  sm_msg : string
}.

Definition Net : Type := list SendMailCall -> SendMailCall -> option string.

Section Runtime.

(** The capacity the runtime gives a slice that [append] has to move, from
    the old capacity and the length needed; it is never less than the
    length needed. *)
Variable grow : nat -> nat -> nat.

(** [append(s, xs...)]: when the capacity of [s] suffices the elements are
    written into the array of [s], behind its window, whatever was there;
    otherwise [s] and [xs] are copied to a new array. *)
Definition append (h : Heap) (s : Slice) (xs : list string) : Heap * Slice :=
  let n := (s_len s + length xs)%nat in
  if (n <=? s_cap s)%nat
  then
    let a := array h s in
    let k := (s_off s + s_len s)%nat in
    (<[s_arr s := take k a ++ xs ++ drop (k + length xs) a]> h,
     mkSlice (s_arr s) (s_off s) n (s_cap s))
  else
    let c := Nat.max n (grow (s_cap s) n) in
    (h ++ [elems h s ++ xs ++ replicate (c - n) ""],
     mkSlice (length h) 0 n c).

Definition Send (net : Net) (es : EmailService) (email : Email)
    (h : Heap) (calls : list SendMailCall)
    : option string * Heap * list SendMailCall :=
  if (s_len (To email) =? 0)%nat
  then (Some "no recipients specified", h, calls)
  else
    let message := buildMessage es h email in
    let addr := SMTPHost (config es) +:+ ":" +:+ pretty (SMTPPort (config es)) in
    let '(h, recipients) := append h (To email) (elems h (CC email)) in
    let '(h, recipients) := append h recipients (elems h (BCC email)) in
    let call := mkSendMailCall addr (auth es) (FromEmail (config es))
                               (elems h recipients) message in
    (net calls call, h, calls ++ [call]).

(** The loop of [SendBulk]. *)
Fixpoint send_each (net : Net) (es : EmailService) (emails : list Email)
    (h : Heap) (calls : list SendMailCall)
    : option string * Heap * list SendMailCall :=
  match emails with
  | [] => (None, h, calls)
  | email :: rest =>
      match Send net es email h calls with
      | (Some err, h, calls) => (Some err, h, calls)
      | (None, h, calls) => send_each net es rest h calls
      end
  end.

(** [SendBulk], on the variable [DefaultEmailService] ([None] is [nil]). *)
Definition SendBulk (net : Net) (service : option EmailService)
    (emails : list Email) (h : Heap) (calls : list SendMailCall)
    : option string * Heap * list SendMailCall :=
  match service with
  | None => (Some "email service not initialized", h, calls)
  | Some es => send_each net es emails h calls
  end.

End Runtime.

(** [strings.Contains(s, substr)] *)
Fixpoint Contains (s substr : string) : bool :=
  if String.prefix substr s then true
  else match s with
       | EmptyString => false
       | String _ s' => Contains s' substr
       end.

Definition ValidateEmail (email : string) : bool :=
  Contains email "@" && Contains email ".".

End Email.

(** Sample values of the email service: a service without
    authentication, a plain email to one address, and a network that
    refuses the second call it sees. *)
Definition sample_service : Email.EmailService :=
  Email.NewEmailService
    (Email.mkEmailConfig "smtp.example.com" 587 "user" "secret"
                         "noreply@example.com" "Flugo" "" false false).

(** The arrays of three To lists of one address each and of a BCC list,
    each made by a slice literal. *)
Definition sample_heap : list (list string) :=
  [["a@example.com"]; ["b@example.com"]; ["c@example.com"];
   ["audit@example.com"]].

(** An email to the address of array [i], with the BCC list above. *)
Definition sample_email (i : nat) : Email.Email :=
  Email.mkEmail (Email.mkSlice i 0 1 1) Email.nil_slice (Email.mkSlice 3 0 1 1)
                "Hello" "Hi there" "" [] ∅.

(** An email without a To address. *)
Definition email_without_To : Email.Email :=
  Email.mkEmail Email.nil_slice Email.nil_slice (Email.mkSlice 3 0 1 1)
                "Hello" "Hi there" "" [] ∅.

(** An email whose To and BCC lists are cut from one array:
    [all := []string{a, x, y}; To: all[:1], CC: []string{c}, BCC: all[1:2]]. *)
Definition shared_heap : list (list string) :=
  [["a@example.com"; "x@example.com"; "y@example.com"]; ["c@example.com"]].

Definition shared_email : Email.Email :=
  Email.mkEmail (Email.mkSlice 0 0 1 3) (Email.mkSlice 1 0 1 1)
                (Email.mkSlice 0 1 1 2) "Hello" "Hi there" "" [] ∅.

(** The growth of the capacity by doubling. *)
Definition doubling : nat -> nat -> nat := fun c _ => (2 * c)%nat.

Definition second_call_fails : Email.Net := fun calls _ =>
  if (length calls =? 1)%nat then Some "connection refused" else None.

(** * Properties *)

(** ** Machine arithmetic *)

Section Arithmetic.

Lemma wrap64_small (x : Z) : is_int x -> wrap64 x = x.
Proof.
  unfold is_int, min_int, max_int, wrap64. intros Hx.
  rewrite Z.mod_small; lia.
Qed.

Lemma wrap64_is_int (x : Z) : is_int (wrap64 x).
Proof.
  unfold is_int, min_int, max_int, wrap64.
  pose proof (Z.mod_pos_bound (x + 2 ^ 63) (2 ^ 64)). lia.
Qed.

(** [wrap64 x] differs from [x] by a multiple of [2^64]. *)
Lemma wrap64_shift (x : Z) : exists k, wrap64 x = x + k * 2 ^ 64.
Proof.
  exists (- ((x + 2 ^ 63) / 2 ^ 64)). unfold wrap64.
  pose proof (Z.div_mod (x + 2 ^ 63) (2 ^ 64)). lia.
Qed.

Lemma wrap64_unique (x y k : Z) :
  is_int y -> x = y + k * 2 ^ 64 -> wrap64 x = y.
Proof.
  intros Hy ->. unfold wrap64.
  replace (y + k * 2 ^ 64 + 2 ^ 63) with (y + 2 ^ 63 + k * 2 ^ 64) by lia.
  rewrite Z.mod_add by lia.
  unfold is_int, min_int, max_int in Hy. rewrite Z.mod_small; lia.
Qed.

Lemma incr_small (x : Z) : min_int <= x < max_int -> incr x = x + 1.
Proof. intros Hx. apply wrap64_small. unfold is_int. lia. Qed.

Lemma decr_small (x : Z) : min_int < x <= max_int -> decr x = x - 1.
Proof. intros Hx. apply wrap64_small. unfold is_int. lia. Qed.

(** [x++] followed by [x--] gives back an [int64]. *)
Lemma decr_incr (x : Z) : is_int x -> decr (incr x) = x.
Proof.
  intros Hx. unfold decr, incr.
  destruct (wrap64_shift (x + 1)) as [k Hk].
  apply (wrap64_unique _ _ k Hx). lia.
Qed.

(** One [x++] adds one to the counter, in [int64]. *)
Lemma added_incr (x : Z) : wrap64 (incr x - x) = 1.
Proof.
  unfold incr. destruct (wrap64_shift (x + 1)) as [k Hk].
  apply (wrap64_unique _ _ k); [unfold is_int, min_int, max_int; lia | lia].
Qed.

Lemma added_same (x : Z) : wrap64 (x - x) = 0.
Proof. rewrite Z.sub_diag. reflexivity. Qed.

(** The square of an attempt count up to 96038, in seconds, is a
    [time.Duration]. *)
Lemma backoff_in_range (a : Z) :
  0 <= a <= 96038 -> mul64 (mul64 a a) Second = a * a * Second.
Proof.
  intros Ha. unfold mul64, Second.
  assert (Hsq : 0 <= a * a <= 96038 * 96038) by nia.
  rewrite (wrap64_small (a * a)) by (unfold is_int, min_int, max_int; lia).
  apply wrap64_small. unfold is_int, min_int, max_int. lia.
Qed.

End Arithmetic.

(** Reading a counter through the updates of [processJob]. *)
Ltac read_stats :=
  unfold added;
  cbn [fst snd o_queue o_job o_invoked o_slept o_requeued o_exit o_at
       stats jobs handlers inc_Active inc_Failed inc_Retried inc_Processed
       dec_Active set_stats set_jobs Failed Retried Processed Active];
  rewrite ?added_incr, ?added_same.

(** ** The paths through processJob

    One equation per path of the source; the theorems below read the
    fields of these outcomes. *)

Section Paths.

Variables (now : Time) (q : Queue) (job : Job).

(** The job record the handler is called with. *)
Let j1 : Job := mark_processing now job.

Lemma processJob_no_handler :
  handlers q !! Type_ job = None ->
  processJob now q job =
    mkOutcome (dec_Active (inc_Failed (inc_Active q)))
      (set_Error ("no handler registered for job type: " +:+ Type_ job)
         (set_Status StatusFailed j1))
      false None false ExitReturn now.
Proof.
  intros Hnone. unfold processJob. cbn [handlers inc_Active set_stats].
  cbn [Type_ mark_processing set_Attempts set_UpdatedAt set_Status].
  rewrite Hnone. reflexivity.
Qed.

Lemma processJob_handler (h : JobHandler) :
  handlers q !! Type_ job = Some h ->
  processJob now q job =
    let t := now + h_elapsed (h j1) in
    match settle t (inc_Active q) j1 (h_result (h j1)) with
    | Panicked v =>
        mkOutcome (dec_Active (inc_Active q)) j1 true None false
                  (ExitPanic v) now
    | Done q' job' =>
        mkOutcome (dec_Active q') job' true None false ExitReturn t
    | Backoff job' delay =>
        match requeue (inc_Active q) job' with
        | ReqSent q' =>
            mkOutcome (dec_Active q') job' true (Some delay) true
                      ExitReturn t
        | ReqFull q' job'' =>
            mkOutcome (dec_Active q') job'' true (Some delay) false
                      ExitReturn (t + sleep_time t delay)
        | ReqPanic v =>
            mkOutcome (dec_Active (inc_Active q)) job' true (Some delay)
                      false (ExitPanic v) t
        end
    end.
Proof.
  intros Hsome. unfold processJob. cbn [handlers inc_Active set_stats].
  cbn [Type_ mark_processing set_Attempts set_UpdatedAt set_Status].
  rewrite Hsome. reflexivity.
Qed.

Lemma processJob_success (h : JobHandler) (el : Duration) :
  handlers q !! Type_ job = Some h ->
  h j1 = mkRun (HReturn None) el ->
  processJob now q job =
    mkOutcome (dec_Active (inc_Processed (inc_Active q)))
      (set_UpdatedAt (now + el) (set_Status StatusCompleted j1))
      true None false ExitReturn (now + el).
Proof.
  intros Hsome Hrun. rewrite (processJob_handler h Hsome), Hrun.
  reflexivity.
Qed.

Lemma processJob_panic (h : JobHandler) (v : string) (el : Duration) :
  handlers q !! Type_ job = Some h ->
  h j1 = mkRun (HPanic v) el ->
  processJob now q job =
    mkOutcome (dec_Active (inc_Active q)) j1 true None false
              (ExitPanic v) now.
Proof.
  intros Hsome Hrun. rewrite (processJob_handler h Hsome), Hrun.
  reflexivity.
Qed.

Lemma processJob_exhausted (h : JobHandler) (err : string) (el : Duration) :
  handlers q !! Type_ job = Some h ->
  h j1 = mkRun (HReturn (Some err)) el ->
  MaxRetry job <= incr (Attempts job) ->
  processJob now q job =
    mkOutcome (dec_Active (inc_Failed (inc_Active q)))
      (set_Status StatusFailed (set_Error err j1))
      true None false ExitReturn (now + el).
Proof.
  intros Hsome Hrun Hmax. rewrite (processJob_handler h Hsome), Hrun.
  cbn [h_result h_elapsed settle]. cbn [Attempts MaxRetry set_Error j1
    mark_processing set_Attempts set_UpdatedAt set_Status].
  destruct (Z.ltb_spec (incr (Attempts job)) (MaxRetry job)); [lia |].
  reflexivity.
Qed.

Lemma settle_retry (t : Time) (q' : Queue) (err : string) :
  incr (Attempts job) < MaxRetry job ->
  settle t q' j1 (HReturn (Some err)) =
    Backoff (retrying now job err) (backoff (retrying now job err)).
Proof.
  intros Hlt. cbn [settle].
  cbn [Attempts MaxRetry set_Error j1 mark_processing set_Attempts
       set_UpdatedAt set_Status].
  destruct (Z.ltb_spec (incr (Attempts job)) (MaxRetry job)); [| lia].
  reflexivity.
Qed.

Lemma processJob_retry_sent (h : JobHandler) (err : string) (el : Duration)
    (c : Chan) :
  handlers q !! Type_ job = Some h ->
  h j1 = mkRun (HReturn (Some err)) el ->
  incr (Attempts job) < MaxRetry job ->
  try_send (jobs q) (retrying now job err) = Sent c ->
  processJob now q job =
    mkOutcome (dec_Active (inc_Retried (set_jobs c (inc_Active q))))
      (retrying now job err) true (Some (backoff (retrying now job err))) true
      ExitReturn (now + el).
Proof.
  intros Hsome Hrun Hlt Hsend. rewrite (processJob_handler h Hsome).
  rewrite Hrun. cbn [h_result h_elapsed]. rewrite (settle_retry _ _ err Hlt).
  unfold requeue. cbn [jobs inc_Active set_stats]. rewrite Hsend.
  reflexivity.
Qed.

Lemma processJob_retry_full (h : JobHandler) (err : string) (el : Duration) :
  handlers q !! Type_ job = Some h ->
  h j1 = mkRun (HReturn (Some err)) el ->
  incr (Attempts job) < MaxRetry job ->
  try_send (jobs q) (retrying now job err) = WouldBlock ->
  processJob now q job =
    mkOutcome (dec_Active (inc_Failed (inc_Active q)))
      (set_Status StatusFailed (retrying now job err))
      true (Some (backoff (retrying now job err))) false ExitReturn
      (now + el + sleep_time (now + el) (backoff (retrying now job err))).
Proof.
  intros Hsome Hrun Hlt Hsend. rewrite (processJob_handler h Hsome).
  rewrite Hrun. cbn [h_result h_elapsed]. rewrite (settle_retry _ _ err Hlt).
  unfold requeue. cbn [jobs inc_Active set_stats]. rewrite Hsend.
  reflexivity.
Qed.

Lemma processJob_retry_closed (h : JobHandler) (err : string) (el : Duration) :
  handlers q !! Type_ job = Some h ->
  h j1 = mkRun (HReturn (Some err)) el ->
  incr (Attempts job) < MaxRetry job ->
  try_send (jobs q) (retrying now job err) = SendPanic ->
  processJob now q job =
    mkOutcome (dec_Active (inc_Active q)) (retrying now job err) true
      (Some (backoff (retrying now job err))) false
      (ExitPanic "send on closed channel") (now + el).
Proof.
  intros Hsome Hrun Hlt Hsend. rewrite (processJob_handler h Hsome).
  rewrite Hrun. cbn [h_result h_elapsed]. rewrite (settle_retry _ _ err Hlt).
  unfold requeue. cbn [jobs inc_Active set_stats]. rewrite Hsend.
  reflexivity.
Qed.

End Paths.

Lemma stopped_queue_stop : Stop sample_queue = Normal stopped_queue.
Proof. reflexivity. Qed.

(** ** Push and Size *)

Lemma try_send_open (c : Chan) (j : Job) :
  closed c = false ->
  try_send c j =
    if (length (buf c) <? cap c)%nat
    then Sent (mkChan (buf c ++ [j]) (cap c) false)
    else WouldBlock.
Proof. intros Hc. unfold try_send. rewrite Hc. reflexivity. Qed.

(** C2, as stated, fails on a queue that was stopped: its buffer holds
    fewer jobs than its capacity, and [Push] panics instead of returning. *)
Lemma Push_after_Stop_panics :
  Stop sample_queue = Normal stopped_queue /\
  Size stopped_queue < 1000 /\
  Push 1 2 3 "noop" ∅ 3 stopped_queue = Panic "send on closed channel" /\
  ~ (exists q' err, Push 1 2 3 "noop" ∅ 3 stopped_queue = Normal (q', err)).
Proof.
  split; [reflexivity |]. split; [reflexivity |]. split; [reflexivity |].
  intros (q' & err & H). discriminate H.
Qed.

(** C2 (amended): on a queue that has not been stopped, [Push] is a
    non-blocking enqueue. While the buffer holds fewer jobs than its
    capacity of 1000, [Push] returns [nil], the new job is the last of the
    buffer and [Size] is one more; when the buffer is full, [Push] returns
    the error "queue is full" and leaves the queue, and so [Size], as it
    was. *)
Theorem Push_nonblocking (t_id t_created t_updated : Time) (jobType : string)
    (payload : gmap string Value) (maxRetry : Z) (q : Queue) :
  closed (jobs q) = false ->
  cap (jobs q) = 1000%nat ->
  (Size q < 1000 ->
     exists q',
       Push t_id t_created t_updated jobType payload maxRetry q
         = Normal (q', None) /\
       Size q' = Size q + 1 /\
       buf (jobs q') =
         buf (jobs q) ++
           [new_job t_id t_created t_updated jobType payload maxRetry]) /\
  (1000 <= Size q ->
     Push t_id t_created t_updated jobType payload maxRetry q
       = Normal (q, Some "queue is full")).
Proof.
  intros Hopen Hcap. unfold Push, Size, chan_len.
  rewrite (try_send_open _ _ Hopen), Hcap. split; intros Hsize.
  - destruct (Nat.ltb_spec (length (buf (jobs q))) 1000); [| lia].
    eexists. split; [reflexivity |]. cbn [jobs set_jobs buf].
    split; [| reflexivity]. rewrite length_app. cbn [length]. lia.
  - destruct (Nat.ltb_spec (length (buf (jobs q))) 1000); [lia |].
    reflexivity.
Qed.

Lemma Push_nonblocking_witness :
  (exists q',
     Push 1 2 3 "noop" ∅ 3 sample_queue = Normal (q', None) /\
     Size q' = Size sample_queue + 1 /\
     buf (jobs q') = buf (jobs sample_queue) ++ [new_job 1 2 3 "noop" ∅ 3]) /\
  Push 1 2 3 "noop" ∅ 3 full_queue = Normal (full_queue, Some "queue is full").
Proof.
  split.
  - apply (Push_nonblocking 1 2 3 "noop" ∅ 3 sample_queue);
      [reflexivity | reflexivity | vm_compute; reflexivity].
  - apply (Push_nonblocking 1 2 3 "noop" ∅ 3 full_queue);
      [reflexivity | reflexivity | vm_compute; discriminate].
Defined.

(** ** One dispatch *)

(** C3, as stated, fails: a job of a type without a handler leaves
    [processJob] with its attempts counter incremented, here from 0 to 1. *)
Lemma no_handler_consumes_attempt :
  let job := new_job 1 2 3 "unknown" ∅ 3 in
  let o := processJob 10 sample_queue job in
  handlers sample_queue !! Type_ job = None /\
  Status (o_job o) = StatusFailed /\
  Attempts job = 0 /\
  Attempts (o_job o) = 1 /\
  Attempts (o_job o) <> Attempts job.
Proof. vm_compute. repeat split; discriminate. Qed.

(** C3 (amended): a dequeued job whose type has no registered handler is
    marked failed at once, with the error message naming its type; the
    failed counter is incremented, the retried and processed counters are
    untouched, the handler, the backoff sleep and the resubmission do not
    take place and the buffer is left as it was. The attempts counter is
    incremented all the same: the increment precedes the lookup. *)
Theorem no_handler_fails_at_once (now : Time) (q : Queue) (job : Job) :
  handlers q !! Type_ job = None ->
  let o := processJob now q job in
  Status (o_job o) = StatusFailed /\
  Error (o_job o) = "no handler registered for job type: " +:+ Type_ job /\
  Failed (stats (o_queue o)) = incr (Failed (stats q)) /\
  Retried (stats (o_queue o)) = Retried (stats q) /\
  Processed (stats (o_queue o)) = Processed (stats q) /\
  o_invoked o = false /\
  o_slept o = None /\
  o_requeued o = false /\
  o_exit o = ExitReturn /\
  jobs (o_queue o) = jobs q /\
  Attempts (o_job o) = incr (Attempts job).
Proof.
  intros Hnone o. subst o. rewrite (processJob_no_handler _ _ _ Hnone).
  repeat split.
Qed.

Lemma no_handler_fails_at_once_witness :
  let o := processJob 10 sample_queue (new_job 1 2 3 "unknown" ∅ 3) in
  Status (o_job o) = StatusFailed /\
  Error (o_job o) = "no handler registered for job type: unknown" /\
  Failed (stats (o_queue o)) = incr (Failed (stats sample_queue)) /\
  Retried (stats (o_queue o)) = Retried (stats sample_queue) /\
  Processed (stats (o_queue o)) = Processed (stats sample_queue) /\
  o_invoked o = false /\
  o_slept o = None /\
  o_requeued o = false /\
  o_exit o = ExitReturn /\
  jobs (o_queue o) = jobs sample_queue /\
  Attempts (o_job o) = incr 0.
Proof.
  apply (no_handler_fails_at_once 10 sample_queue
           (new_job 1 2 3 "unknown" ∅ 3)).
  reflexivity.
Defined.

(** While the wake-up time is an instant of the clock, the pause is the
    delay asked for. *)
Lemma sleep_time_in_range (t : Time) (d : Duration) :
  0 <= t -> 0 <= d -> t + d <= max_int -> sleep_time t d = d.
Proof.
  intros Ht Hd Hwake. unfold sleep_time.
  destruct (Z.leb_spec d 0); [lia |].
  rewrite wrap64_small by (unfold is_int, min_int, max_int in *; lia).
  destruct (Z.ltb_spec (t + d) 0); lia.
Qed.

(** C4: when the handler of a job fails and a retry is due, with the
    attempts counter at [k] after the failed execution, the worker calls
    [time.Sleep] with exactly [k^2] seconds and is paused for exactly
    [k^2] seconds before it resubmits the job: 1s, 4s, 9s, 16s, ... for the
    successive retries of a job. The instants involved are instants of the
    clock, which counts nanoseconds in an [int64] from 0: the handler
    returns at [now + el >= 0] and the sleep is due to end at or before
    [max_int]. *)
Theorem backoff_is_quadratic (now : Time) (q : Queue) (job : Job)
    (h : JobHandler) (err : string) (el : Duration) (k : Z) :
  handlers q !! Type_ job = Some h ->
  h (mark_processing now job) = mkRun (HReturn (Some err)) el ->
  Attempts (mark_processing now job) = k ->
  1 <= k < MaxRetry job ->
  0 <= now + el ->
  now + el + k * k * Second <= max_int ->
  let o := processJob now q job in
  Attempts (o_job o) = k /\
  o_slept o = Some (k * k * Second) /\
  sleep_time (now + el) (k * k * Second) = k * k * Second.
Proof.
  intros Hsome Hrun Hk Hlt Hret Hwake o.
  assert (Hincr : incr (Attempts job) = k) by exact Hk.
  assert (Hrange : 0 <= k <= 96038).
  { split; [lia |]. unfold max_int, Second in Hwake.
    destruct (Z.le_gt_cases k 96038); [assumption | exfalso; nia]. }
  assert (Hback : backoff (retrying now job err) = k * k * Second).
  { unfold backoff. cbn [Attempts retrying set_Status set_Error
      mark_processing set_Attempts set_UpdatedAt].
    rewrite Hincr. apply backoff_in_range. lia. }
  assert (Hsleep : sleep_time (now + el) (k * k * Second) = k * k * Second).
  { apply sleep_time_in_range; [lia | unfold Second; nia | lia]. }
  subst o.
  destruct (try_send (jobs q) (retrying now job err)) as [c | |] eqn:Hsend.
  - rewrite (processJob_retry_sent _ _ _ h err el c); [| done | done | lia | done].
    cbn [o_job o_slept]. rewrite Hback. repeat split; [exact Hk | exact Hsleep].
  - rewrite (processJob_retry_full _ _ _ h err el); [| done | done | lia | done].
    cbn [o_job o_slept]. rewrite Hback. repeat split; [exact Hk | exact Hsleep].
  - rewrite (processJob_retry_closed _ _ _ h err el); [| done | done | lia | done].
    cbn [o_job o_slept]. rewrite Hback. repeat split; [exact Hk | exact Hsleep].
Qed.

Lemma backoff_is_quadratic_witness :
  let job := set_Attempts 2 (new_job 1 2 3 "always_fail" ∅ 5) in
  let o := processJob 10 sample_queue job in
  Attempts (o_job o) = 3 /\
  o_slept o = Some (3 * 3 * Second) /\
  sleep_time (10 + 5 * Millisecond) (3 * 3 * Second) = 3 * 3 * Second.
Proof.
  apply (backoff_is_quadratic 10 sample_queue
           (set_Attempts 2 (new_job 1 2 3 "always_fail" ∅ 5))
           handler_always_fail "always fails" (5 * Millisecond) 3);
    [reflexivity | reflexivity | reflexivity | cbn; lia
    | unfold Millisecond; lia | unfold Millisecond, Second, max_int; lia].
Defined.

(** The delays of a job pushed with maxRetry = 5 whose handler always
    fails: 1s, 4s, 9s and 16s before the four resubmissions, none after the
    fifth failure. *)
Lemma retry_delays :
  map (fun r => o_slept r.2)
      (lifecycle (replicate 5 (mkDispatch 10 sample_queue))
                 (new_job 1 2 3 "always_fail" ∅ 5))
  = [Some (1 * Second); Some (4 * Second); Some (9 * Second);
     Some (16 * Second); None].
Proof. vm_compute. reflexivity. Qed.

(** C5: when the handler of a job fails while retry budget remains
    (attempts < maxRetry after the failed execution) and the resubmission
    finds the channel full (the [select] takes its [default] branch), the
    job is marked failed and the failed counter is incremented; the retried
    counter and the buffer are untouched, the job is not in the channel and
    its life ends with this dispatch, whatever dispatches could follow. *)
Theorem requeue_on_full_channel_fails (d : Dispatch) (ds : list Dispatch)
    (job : Job) (h : JobHandler) (err : string) (el : Duration) :
  handlers (d_queue d) !! Type_ job = Some h ->
  h (mark_processing (d_now d) job) = mkRun (HReturn (Some err)) el ->
  Attempts (mark_processing (d_now d) job) < MaxRetry job ->
  try_send (jobs (d_queue d)) (retrying (d_now d) job err) = WouldBlock ->
  let o := processJob (d_now d) (d_queue d) job in
  Status (o_job o) = StatusFailed /\
  Attempts (o_job o) < MaxRetry (o_job o) /\
  Failed (stats (o_queue o)) = incr (Failed (stats (d_queue d))) /\
  Retried (stats (o_queue o)) = Retried (stats (d_queue d)) /\
  jobs (o_queue o) = jobs (d_queue d) /\
  o_requeued o = false /\
  o_exit o = ExitReturn /\
  lifecycle (d :: ds) job = [(d, o)].
Proof.
  intros Hsome Hrun Hlt Hfull o.
  assert (Ho : o = processJob (d_now d) (d_queue d) job) by reflexivity.
  rewrite (processJob_retry_full _ _ _ h err el Hsome Hrun Hlt Hfull) in Ho.
  cbn [lifecycle]. fold o. rewrite Ho. cbn [o_job o_queue o_requeued o_exit].
  repeat split. exact Hlt.
Qed.

Lemma requeue_on_full_channel_fails_witness :
  let d := mkDispatch 10 full_queue in
  let job := new_job 1 2 3 "always_fail" ∅ 3 in
  let o := processJob 10 full_queue job in
  Status (o_job o) = StatusFailed /\
  Attempts (o_job o) < MaxRetry (o_job o) /\
  Failed (stats (o_queue o)) = incr (Failed (stats full_queue)) /\
  Retried (stats (o_queue o)) = Retried (stats full_queue) /\
  jobs (o_queue o) = jobs full_queue /\
  o_requeued o = false /\
  o_exit o = ExitReturn /\
  lifecycle [d; d; d] job = [(d, o)].
Proof.
  apply (requeue_on_full_channel_fails (mkDispatch 10 full_queue)
           [mkDispatch 10 full_queue; mkDispatch 10 full_queue]
           (new_job 1 2 3 "always_fail" ∅ 3)
           handler_always_fail "always fails" (5 * Millisecond));
    [reflexivity | reflexivity | reflexivity | vm_compute; reflexivity].
Defined.

(** Only the transitions to processing and to completed assign
    [job.UpdatedAt]: after a failed execution it still holds the reading
    taken when the job was marked processing. *)
Lemma failure_keeps_UpdatedAt (now : Time) (q : Queue) (job : Job)
    (h : JobHandler) (err : string) (el : Duration) :
  handlers q !! Type_ job = Some h ->
  h (mark_processing now job) = mkRun (HReturn (Some err)) el ->
  UpdatedAt (o_job (processJob now q job)) = now.
Proof.
  intros Hsome Hrun.
  destruct (Z.lt_ge_cases (incr (Attempts job)) (MaxRetry job)) as [Hlt | Hge].
  - destruct (try_send (jobs q) (retrying now job err)) as [c | |] eqn:Hsend.
    + rewrite (processJob_retry_sent _ _ _ h err el c); done.
    + rewrite (processJob_retry_full _ _ _ h err el); done.
    + rewrite (processJob_retry_closed _ _ _ h err el); done.
  - rewrite (processJob_exhausted _ _ _ h err el); done.
Qed.

(** C9 does not hold of the code. A job pushed with maxRetry = 1 is
    dispatched at time 1000; its handler returns an error 5ms later, and the
    job is marked failed then. Its [UpdatedAt] is still 1000, the time of
    the transition to processing. The same happens at a transition to
    retrying: with maxRetry = 3 the job is marked retrying at 5001000 and
    [UpdatedAt] stays at 1000. The transition to completed does refresh
    the field: an email job dispatched at 1000 completes at 100001000 and
    carries that time. *)
Theorem failed_transition_keeps_UpdatedAt :
  let failed := processJob 1000 sample_queue (new_job 1 2 3 "always_fail" ∅ 1) in
  let retried := processJob 1000 sample_queue (new_job 1 2 3 "always_fail" ∅ 3) in
  let completed :=
    processJob 1000 sample_queue
      (new_job 1 2 3 "send_email" (email_payload "a@b.c" "hello" "") 3) in
  (Status (o_job failed) = StatusFailed /\
   o_at failed = 5001000 /\ UpdatedAt (o_job failed) = 1000) /\
  (Status (o_job retried) = StatusRetrying /\
   o_at retried = 5001000 /\ UpdatedAt (o_job retried) = 1000) /\
  (Status (o_job completed) = StatusCompleted /\
   o_at completed = 100001000 /\ UpdatedAt (o_job completed) = 100001000).
Proof. vm_compute. repeat split. Qed.



(** ** The worker pool and the active gauge *)

Section Pool.

Lemma count_pool_nonneg (p : WorkerPC -> bool) (pool : list WorkerPC) :
  0 <= count_pool p pool <= Z.of_nat (length pool).
Proof.
  unfold count_pool.
  pose proof (length_filter (fun pc => p pc = true) pool). lia.
Qed.

Lemma count_pool_cons (p : WorkerPC -> bool) (pc : WorkerPC)
    (pool : list WorkerPC) :
  count_pool p (pc :: pool) = (if p pc then 1 else 0) + count_pool p pool.
Proof.
  unfold count_pool. rewrite filter_cons.
  destruct (p pc); case_decide; try congruence; cbn [length]; lia.
Qed.

(** Moving one worker changes the count by what it leaves and enters. *)
Lemma count_pool_insert (p : WorkerPC -> bool) (pool : list WorkerPC)
    (i : nat) (pc pc' : WorkerPC) :
  pool !! i = Some pc ->
  count_pool p (<[i := pc']> pool) =
    count_pool p pool - (if p pc then 1 else 0) + (if p pc' then 1 else 0).
Proof.
  revert i. induction pool as [| x pool IH]; intros [| i] Hi;
    try discriminate Hi.
  - injection Hi as ->.
    change (<[0%nat := pc']> (pc :: pool)) with (pc' :: pool).
    rewrite !count_pool_cons. lia.
  - change (<[S i := pc']> (x :: pool)) with (x :: <[i := pc']> pool).
    rewrite !count_pool_cons, (IH i Hi). lia.
Qed.

Lemma count_pool_none (p : WorkerPC -> bool) (pool : list WorkerPC) :
  (forall pc, pc ∈ pool -> p pc = false) -> count_pool p pool = 0.
Proof.
  induction pool as [| x pool IH]; intros Hall; [reflexivity |].
  rewrite count_pool_cons, IH.
  - rewrite (Hall x) by apply list_elem_of_here. reflexivity.
  - intros pc Hpc. apply Hall. by apply list_elem_of_further.
Qed.

(** What a step of a worker does to the gauge, by the place it leaves and
    the place it reaches. *)
Lemma worker_step_Active (q q' : Queue) (pc pc' : WorkerPC) :
  worker_step q pc q' pc' ->
  Active (stats q') =
    match in_processJob pc, in_processJob pc' with
    | false, true => incr (Active (stats q))
    | true, false => decr (Active (stats q))
    | _, _ => Active (stats q)
    end.
Proof.
  intros Hstep. destruct Hstep; cbn [in_processJob]; try reflexivity.
  - match goal with H : no_handler _ _ = _ |- _ =>
      injection H as <- <- end. reflexivity.
  - match goal with H : settle _ _ _ _ = _ |- _ =>
      unfold settle in H; repeat case_match; simplify_eq end; reflexivity.
  - match goal with H : requeue _ _ = _ |- _ =>
      unfold requeue in H; repeat case_match; simplify_eq end; reflexivity.
  - match goal with H : requeue _ _ = _ |- _ =>
      unfold requeue in H; repeat case_match; simplify_eq end; reflexivity.
Qed.

Lemma pool_inv_Init (nm : string) (n : Z) : pool_inv n (Init nm n).
Proof.
  split; cbn [Init Start sys_queue sys_pool NewQueue stats Active workers app].
  - symmetry. apply count_pool_none. intros pc Hpc.
    apply elem_of_replicate_inv in Hpc. subst pc. reflexivity.
  - apply length_replicate.
Qed.

Lemma pool_inv_step (n : Z) (s s' : System) :
  n <= max_int -> pool_inv n s -> step s s' -> pool_inv n s'.
Proof.
  intros Hn [Hact Hlen] Hstep.
  pose proof (count_pool_nonneg in_processJob (sys_pool s)) as Hcount.
  assert (Hbound : Z.of_nat (length (sys_pool s)) <= max_int)
    by (rewrite Hlen; unfold max_int in *; lia).
  destruct Hstep as
    [s i pc q' pc' _ Hi Hw | s i job v _ Hi
    | s t1 t2 t3 jt pl mr q' err _ Hpush | s jt h _ | s q' _ Hstop
    | s t1 t2 t3 jt pl mr v _ Hpanic | s v _ Hpanic];
    split; cbn [sys_queue sys_pool]; try (rewrite length_insert; exact Hlen);
    try exact Hlen.
  - rewrite (count_pool_insert _ _ _ _ _ Hi), (worker_step_Active _ _ _ _ Hw),
      Hact.
    pose proof (count_pool_nonneg in_processJob (<[i := pc']> (sys_pool s)))
      as Hcount'.
    rewrite length_insert, (count_pool_insert _ _ _ _ _ Hi) in Hcount'.
    destruct (in_processJob pc), (in_processJob pc'); try lia.
    + rewrite decr_small; unfold min_int, max_int in *; lia.
    + rewrite incr_small; unfold min_int, max_int in *; lia.
  - rewrite (count_pool_insert _ _ _ _ _ Hi). cbn [in_processJob].
    pose proof (count_pool_nonneg in_processJob (<[i := WStopped]> (sys_pool s)))
      as Hcount'.
    rewrite length_insert, (count_pool_insert _ _ _ _ _ Hi) in Hcount'.
    cbn [in_processJob] in Hcount'.
    cbn [dec_Active stats set_stats Active]. rewrite Hact.
    rewrite decr_small; unfold min_int, max_int in *; lia.
  - unfold Push in Hpush. repeat case_match; simplify_eq; exact Hact.
  - exact Hact.
  - unfold Stop in Hstop. case_match; simplify_eq. exact Hact.
  - exact Hact.
  - exact Hact.
Qed.

Lemma pool_inv_reachable (nm : string) (n : Z) (s : System) :
  n <= max_int -> reachable nm n s -> pool_inv n s.
Proof.
  intros Hn. unfold reachable. revert s. apply rtc_ind_r.
  - apply pool_inv_Init.
  - intros s s' _ Hstep IH. exact (pool_inv_step n s s' Hn IH Hstep).
Qed.

End Pool.

(** ** The capacity of the channel *)

Lemma try_send_ok (c c' : Chan) (j : Job) :
  try_send c j = Sent c' -> chan_ok c -> chan_ok c'.
Proof.
  unfold try_send, chan_ok. intros Hsend [Hcap Hlen].
  destruct (closed c); [discriminate |].
  destruct (Nat.ltb_spec (length (buf c)) (cap c)); [| discriminate].
  injection Hsend as <-. cbn [cap buf]. rewrite length_app. cbn [length].
  split; [exact Hcap | lia].
Qed.

Lemma try_recv_ok (c c' : Chan) (j : Job) :
  try_recv c = Received j c' -> chan_ok c -> chan_ok c'.
Proof.
  unfold try_recv, chan_ok. intros Hrecv [Hcap Hlen].
  destruct (buf c) as [| j0 rest] eqn:Hbuf.
  - destruct (closed c); discriminate.
  - injection Hrecv as <- <-. cbn [cap buf]. cbn [length] in Hlen.
    split; [exact Hcap | lia].
Qed.

Lemma worker_step_chan_ok (q q' : Queue) (pc pc' : WorkerPC) :
  worker_step q pc q' pc' -> chan_ok (jobs q) -> chan_ok (jobs q').
Proof.
  intros Hstep Hok. destruct Hstep; try exact Hok.
  - cbn [jobs set_jobs]. by eapply try_recv_ok.
  - match goal with H : no_handler _ _ = _ |- _ =>
      injection H as <- <- end. exact Hok.
  - match goal with H : settle _ _ _ _ = _ |- _ =>
      unfold settle in H; repeat case_match; simplify_eq end; exact Hok.
  - match goal with H : requeue _ _ = _ |- _ =>
      unfold requeue in H; destruct (try_send _ _) eqn:Hsend; simplify_eq end.
    cbn [jobs inc_Retried set_stats set_jobs]. by eapply try_send_ok.
  - match goal with H : requeue _ _ = _ |- _ =>
      unfold requeue in H; repeat case_match; simplify_eq end; exact Hok.
Qed.

(** X5: the buffer of a queue made by [NewQueue] has capacity 1000 for
    good and never holds more: in every state the program can reach, [Size]
    is within [0, 1000], whatever was pushed, retried or received. *)
Lemma capacity_is_fixed (nm : string) (n : Z) (s : System) :
  reachable nm n s ->
  cap (jobs (sys_queue s)) = 1000%nat /\ 0 <= Size (sys_queue s) <= 1000.
Proof.
  intros Hreach.
  assert (Hok : chan_ok (jobs (sys_queue s))).
  { revert s Hreach. apply rtc_ind_r.
    - split; cbn; lia.
    - intros s s' _ Hstep IH.
      destruct Hstep as
        [s i pc q' pc' _ Hi Hw | s i job v _ Hi
        | s t1 t2 t3 jt pl mr q' err _ Hpush | s jt h _ | s q' _ Hstop
    | s t1 t2 t3 jt pl mr v _ Hpanic | s v _ Hpanic];
        cbn [sys_queue].
      + by eapply worker_step_chan_ok.
      + exact IH.
      + unfold Push in Hpush.
        destruct (try_send _ _) eqn:Hsend; simplify_eq; [| exact IH].
        cbn [jobs set_jobs]. by eapply try_send_ok.
      + exact IH.
      + unfold Stop in Hstop. case_match; simplify_eq. exact IH.
      + exact IH.
      + exact IH. }
  destruct Hok as [Hcap Hlen]. unfold Size, chan_len. split; [exact Hcap | lia].
Qed.

(** Every path through [processJob] runs [Active++] once and the deferred
    [Active--] once. *)
Lemma processJob_Active (now : Time) (q : Queue) (job : Job) :
  Active (stats (o_queue (processJob now q job))) =
    decr (incr (Active (stats q))).
Proof.
  unfold processJob, no_handler, settle, requeue.
  repeat case_match; simplify_eq; reflexivity.
Qed.

Lemma backoff_state_reachable : reachable "default" 1 backoff_state.
Proof.
  unfold reachable.
  eapply rtc_l;
    [apply (step_register _ "always_fail" handler_always_fail); reflexivity |].
  eapply rtc_l;
    [eapply (step_push _ 1 2 3 "always_fail" ∅ 3); reflexivity |].
  eapply rtc_l;
    [eapply (step_worker _ 0%nat WIdle);
       [reflexivity | reflexivity | eapply ws_receive; reflexivity] |].
  eapply rtc_l;
    [eapply (step_worker _ 0%nat (WReceived _));
       [reflexivity | reflexivity | apply ws_enter] |].
  eapply rtc_l;
    [eapply (step_worker _ 0%nat (WEntered _));
       [reflexivity | reflexivity
       | apply (ws_invoke _ _ 10 handler_always_fail); reflexivity] |].
  eapply rtc_l;
    [eapply (step_worker _ 0%nat (WInvoking _ _));
       [reflexivity | reflexivity
       | apply (ws_backoff _ _ _ 5000010 backoff_job Second); reflexivity] |].
  apply rtc_refl.
Qed.

(** C8, as stated, fails: during the backoff sleep of a retry no worker
    executes a handler, and the active gauge is 1. *)
Lemma active_during_backoff :
  reachable "default" 1 backoff_state /\
  (forall pc, pc ∈ sys_pool backoff_state -> in_handler pc = false) /\
  Active (stats (sys_queue backoff_state)) = 1 /\
  Active (stats (sys_queue backoff_state)) <> 0.
Proof.
  split; [exact backoff_state_reachable |]. split.
  - intros pc Hpc. apply list_elem_of_singleton in Hpc. subst pc. reflexivity.
  - split; [reflexivity | discriminate].
Qed.

(** C8 (amended): in every state the pool started by [Init nm n] can reach,
    the active gauge is the number of workers inside [processJob], that is
    past its [Active++] and before its deferred [Active--] (a worker in
    its backoff sleep is among them); so the gauge is never negative, never
    above the number of workers, and 0 whenever no worker is inside
    [processJob]. Every call of [processJob], whatever its outcome (a
    return or a panic), leaves the gauge as it found it. *)
Theorem active_gauge (nm : string) (n : Z) (s : System) :
  n <= max_int ->
  reachable nm n s ->
  Active (stats (sys_queue s)) = count_pool in_processJob (sys_pool s) /\
  0 <= Active (stats (sys_queue s)) <= Z.of_nat (length (sys_pool s)) /\
  Z.of_nat (length (sys_pool s)) = Z.max 0 n /\
  ((forall pc, pc ∈ sys_pool s -> in_processJob pc = false) ->
   Active (stats (sys_queue s)) = 0) /\
  (forall now job,
     Active (stats (o_queue (processJob now (sys_queue s) job))) =
       Active (stats (sys_queue s))).
Proof.
  intros Hn Hreach.
  destruct (pool_inv_reachable nm n s Hn Hreach) as [Hact Hlen].
  pose proof (count_pool_nonneg in_processJob (sys_pool s)) as Hcount.
  split; [exact Hact |]. split; [lia |]. split; [lia |]. split.
  - intros Hnone. rewrite Hact. by apply count_pool_none.
  - intros now job. rewrite processJob_Active. apply decr_incr.
    unfold is_int, min_int, max_int in *. lia.
Qed.

Lemma active_gauge_witness :
  Active (stats (sys_queue backoff_state)) =
    count_pool in_processJob (sys_pool backoff_state) /\
  0 <= Active (stats (sys_queue backoff_state))
    <= Z.of_nat (length (sys_pool backoff_state)) /\
  Z.of_nat (length (sys_pool backoff_state)) = Z.max 0 1 /\
  ((forall pc, pc ∈ sys_pool backoff_state -> in_processJob pc = false) ->
   Active (stats (sys_queue backoff_state)) = 0) /\
  (forall now job,
     Active (stats (o_queue (processJob now (sys_queue backoff_state) job))) =
       Active (stats (sys_queue backoff_state))).
Proof.
  apply (active_gauge "default" 1 backoff_state).
  - unfold max_int. lia.
  - exact backoff_state_reachable.
Defined.

(** ** A worker following one job: [processJob] step by step *)

Section OneWorker.

(** What one worker does alone, it does in the pool. *)
Lemma solo_in_pool (a b : Queue * WorkerPC) :
  rtc solo a b ->
  forall (pool : list WorkerPC) (i : nat),
    pool !! i = Some a.2 ->
    rtc step (mkSystem a.1 pool false)
             (mkSystem b.1 (<[i := b.2]> pool) false).
Proof.
  induction 1 as [[q pc] | [q pc] [q1 pc1] [q2 pc2] Hstep _ IH];
    intros pool i Hi; cbn [fst snd] in *.
  - rewrite (list_insert_id _ _ _ Hi). apply rtc_refl.
  - eapply rtc_l.
    + apply (step_worker (mkSystem q pool false) i pc q1 pc1);
        [reflexivity | exact Hi | exact Hstep].
    + cbn [sys_pool].
      rewrite <- (list_insert_insert_eq pool i pc2 pc1). apply IH.
      apply list_lookup_insert_eq. by eapply lookup_lt_Some.
Qed.

(** From the receipt of a job to the deferred function, a worker goes
    through the pieces [processJob] is made of. *)
Lemma processJob_solo (now : Time) (q : Queue) (job : Job) :
  let o := processJob now q job in
  exists q', o_queue o = dec_Active q' /\
    rtc solo (q, WReceived job) (q', WLeaving (o_job o) (o_exit o)).
Proof.
  cbv zeta. unfold processJob.
  set (q1 := inc_Active q). set (j1 := mark_processing now job).
  assert (Henter : solo (q, WReceived job) (q1, WEntered job))
    by apply ws_enter.
  destruct (handlers q1 !! Type_ j1) as [h |] eqn:Hlook.
  - assert (Hinvoke : solo (q1, WEntered job) (q1, WInvoking j1 h))
      by (apply (ws_invoke q1 job now h); exact Hlook).
    set (t := now + h_elapsed (h j1)).
    destruct (settle t q1 j1 (h_result (h j1))) as [q2 j2 | j2 delay | v]
      eqn:Hsettle.
    + exists q2. split; [reflexivity |].
      eapply rtc_l; [exact Henter |]. eapply rtc_l; [exact Hinvoke |].
      apply rtc_once. exact (ws_done q1 j1 h t q2 j2 Hsettle).
    + assert (Hsleep : solo (q1, WInvoking j1 h) (q1, WSleeping j2 delay))
        by exact (ws_backoff q1 j1 h t j2 delay Hsettle).
      destruct (requeue q1 j2) as [q3 | q3 j3 | v] eqn:Hreq.
      * exists q3. split; [reflexivity |].
        eapply rtc_l; [exact Henter |]. eapply rtc_l; [exact Hinvoke |].
        eapply rtc_l; [exact Hsleep |].
        apply rtc_once. exact (ws_requeue q1 j2 delay q3 Hreq).
      * exists q3. split; [reflexivity |].
        eapply rtc_l; [exact Henter |]. eapply rtc_l; [exact Hinvoke |].
        eapply rtc_l; [exact Hsleep |].
        apply rtc_once. exact (ws_full q1 j2 delay q3 j3 Hreq).
      * exists q1. split; [reflexivity |].
        eapply rtc_l; [exact Henter |]. eapply rtc_l; [exact Hinvoke |].
        eapply rtc_l; [exact Hsleep |].
        apply rtc_once. exact (ws_closed q1 j2 delay v Hreq).
    + exists q1. split; [reflexivity |].
      eapply rtc_l; [exact Henter |]. eapply rtc_l; [exact Hinvoke |].
      apply rtc_once. exact (ws_panic q1 j1 h t v Hsettle).
  - destruct (no_handler q1 j1) as [q2 j2] eqn:Hno.
    exists q2. split; [reflexivity |].
    eapply rtc_l; [exact Henter |].
    apply rtc_once. exact (ws_no_handler q1 job now q2 j2 Hlook Hno).
Qed.

(** X17: a worker of the pool that has received a job can run
    [processJob] to its end, through the steps of the pool: the queue is
    then the one the call of [processJob] gives, the worker is back at its
    [select] when the call returned, and the program has ended when a
    panic left the call. *)
Lemma processJob_in_pool (now : Time) (s : System) (i : nat) (job : Job) :
  sys_crashed s = false ->
  sys_pool s !! i = Some (WReceived job) ->
  let o := processJob now (sys_queue s) job in
  rtc step s
    (match o_exit o with
     | ExitReturn => mkSystem (o_queue o) (<[i := WIdle]> (sys_pool s)) false
     | ExitPanic _ => mkSystem (o_queue o) (<[i := WStopped]> (sys_pool s)) true
     end).
Proof.
  intros Hlive Hi o. destruct s as [q pool crashed].
  cbn [sys_crashed sys_pool sys_queue] in *. subst crashed.
  destruct (processJob_solo now q job) as (q' & Hq' & Hrun). fold o in Hq', Hrun.
  pose proof (solo_in_pool _ _ Hrun pool i Hi) as Hsteps.
  cbn [fst snd] in Hsteps.
  assert (Hat : <[i := WLeaving (o_job o) (o_exit o)]> pool !! i
                = Some (WLeaving (o_job o) (o_exit o)))
    by (apply list_lookup_insert_eq; by eapply lookup_lt_Some).
  rewrite Hq'. destruct (o_exit o) as [| v] eqn:Hexit.
  - pose proof (step_worker
                  (mkSystem q' (<[i := WLeaving (o_job o) ExitReturn]> pool)
                            false)
                  i _ (dec_Active q') WIdle eq_refl Hat
                  (ws_leave q' (o_job o))) as Hlast.
    cbn [sys_pool sys_queue] in Hlast.
    rewrite list_insert_insert_eq in Hlast.
    eapply rtc_r; [exact Hsteps | exact Hlast].
  - pose proof (step_panic
                  (mkSystem q' (<[i := WLeaving (o_job o) (ExitPanic v)]> pool)
                            false)
                  i (o_job o) v eq_refl Hat) as Hlast.
    cbn [sys_pool sys_queue] in Hlast.
    rewrite list_insert_insert_eq in Hlast.
    eapply rtc_r; [exact Hsteps | exact Hlast].
Qed.

(** Once a panic has ended the program nothing runs. *)
Lemma crashed_is_final (s s' : System) :
  sys_crashed s = true -> ~ step s s'.
Proof. intros Hc Hstep. destruct Hstep; congruence. Qed.

(** A worker whose call of [processJob] is left by a panic has no step
    that takes it back to its loop. *)
Lemma panic_leaves_worker (q q' : Queue) (job : Job) (v : string)
    (pc' : WorkerPC) :
  ~ worker_step q (WLeaving job (ExitPanic v)) q' pc'.
Proof. intros Hstep. inversion Hstep. Qed.

(** A handler that panics takes its worker to the deferred function with
    the panic pending, the queue and the job as they were. *)
Lemma panic_in_handler (q q' : Queue) (job : Job) (h : JobHandler)
    (v : string) (el : Duration) (pc' : WorkerPC) :
  h job = mkRun (HPanic v) el ->
  worker_step q (WInvoking job h) q' pc' ->
  q' = q /\ pc' = WLeaving job (ExitPanic v).
Proof.
  intros Hrun Hstep. inversion Hstep; subst;
    match goal with H : settle _ _ _ _ = _ |- _ =>
      rewrite Hrun in H; cbn [h_result settle] in H; simplify_eq end.
  split; reflexivity.
Qed.

End OneWorker.

(** ** The life of a job in the pool *)



(** No step of a worker leaves it where it was: a step of the program that
    leaves worker [i] where it is, is a step of somebody else. *)
Lemma worker_step_moves (q q' : Queue) (pc pc' : WorkerPC) :
  worker_step q pc q' pc' -> pc <> pc'.
Proof. destruct 1; discriminate. Qed.





Section LifeOfAJob.

Variables (jobType : string) (K M : Z).
Hypothesis HM : 1 <= M <= max_int.




End LifeOfAJob.




Section SoloLife.

Variables (jobType : string) (K M : Z).
Hypothesis HM : 1 <= M <= max_int.


End SoloLife.






(** ** A handler that panics *)

Lemma crashed_state_reachable : reachable "default" 1 crashed_state.
Proof.
  unfold reachable.
  eapply rtc_l;
    [apply (step_register _ "panic" handler_panic); reflexivity |].
  eapply rtc_l; [eapply (step_push _ 1 2 3 "panic" ∅ 3); reflexivity |].
  eapply rtc_l; [eapply (step_push _ 4 5 6 "panic" ∅ 3); reflexivity |].
  eapply rtc_l;
    [eapply (step_worker _ 0%nat WIdle);
       [reflexivity | reflexivity | eapply ws_receive; reflexivity] |].
  eapply rtc_l;
    [eapply (step_worker _ 0%nat (WReceived _));
       [reflexivity | reflexivity | apply ws_enter] |].
  eapply rtc_l;
    [eapply (step_worker _ 0%nat (WEntered _));
       [reflexivity | reflexivity
       | apply (ws_invoke _ _ 10 handler_panic); reflexivity] |].
  eapply rtc_l;
    [eapply (step_worker _ 0%nat (WInvoking _ _));
       [reflexivity | reflexivity
       | apply (ws_panic _ _ _ 10 "boom"); reflexivity] |].
  eapply rtc_l;
    [eapply (step_panic _ 0%nat); [reflexivity | reflexivity] |].
  apply rtc_refl.
Qed.

(** C6, as stated, fails: nothing catches the panic of a handler. The call
    of [processJob] is left by the panic with the job still marked
    processing and no counter of outcomes touched; in the pool, the worker
    is gone and the program has ended, with the next job still in the
    buffer and no step left to take it. *)
Lemma handler_panic_kills_worker :
  let o := processJob 10 sample_queue (new_job 1 2 3 "panic" ∅ 3) in
  (o_exit o = ExitPanic "boom" /\
   Status (o_job o) = StatusProcessing /\
   Failed (stats (o_queue o)) = 0 /\
   o_requeued o = false) /\
  (reachable "default" 1 crashed_state /\
   sys_pool crashed_state = [WStopped] /\
   sys_crashed crashed_state = true /\
   buf (jobs (sys_queue crashed_state)) = [waiting_job] /\
   Failed (stats (sys_queue crashed_state)) = 0 /\
   forall s', ~ step crashed_state s').
Proof.
  split; [vm_compute; repeat split |].
  split; [exact crashed_state_reachable |].
  repeat split. intros s'. by apply crashed_is_final.
Qed.

(** C6 (amended): a panic of a handler is not caught. The deferred
    function of [processJob] still runs, so the active gauge is decremented;
    the job is left as it was when the handler was called (marked
    processing, the attempt counted), none of the processed, failed and
    retried counters changes and the job is not resubmitted; the panic
    leaves [processJob]. In the pool, the worker goes from the handler to
    the deferred function with the panic pending, it has no step back to
    its loop, and its next step ends the program: no worker fetches a job
    afterwards. *)
Theorem handler_panic_is_not_caught (now : Time) (q : Queue) (job : Job)
    (h : JobHandler) (v : string) (el : Duration) :
  handlers q !! Type_ job = Some h ->
  h (mark_processing now job) = mkRun (HPanic v) el ->
  let o := processJob now q job in
  (o_exit o = ExitPanic v /\
   o_job o = mark_processing now job /\
   Status (o_job o) = StatusProcessing /\
   Active (stats (o_queue o)) = decr (incr (Active (stats q))) /\
   Processed (stats (o_queue o)) = Processed (stats q) /\
   Failed (stats (o_queue o)) = Failed (stats q) /\
   Retried (stats (o_queue o)) = Retried (stats q) /\
   jobs (o_queue o) = jobs q /\
   o_requeued o = false) /\
  (forall q0 q' pc',
     worker_step q0 (WInvoking (mark_processing now job) h) q' pc' ->
     q' = q0 /\ pc' = WLeaving (o_job o) (o_exit o)) /\
  (forall q0 q' pc',
     ~ worker_step q0 (WLeaving (o_job o) (o_exit o)) q' pc') /\
  (forall s i,
     sys_crashed s = false ->
     sys_pool s !! i = Some (WLeaving (o_job o) (o_exit o)) ->
     exists s', step s s' /\ sys_crashed s' = true /\
                sys_pool s' !! i = Some WStopped /\
                forall s'', ~ step s' s'').
Proof.
  intros Hsome Hrun o.
  assert (Ho : o = processJob now q job) by reflexivity.
  rewrite (processJob_panic now q job h v el Hsome Hrun) in Ho.
  rewrite Ho. cbn [o_exit o_job o_queue o_requeued].
  split; [repeat split |]. split; [| split].
  - intros q0 q' pc' Hstep. exact (panic_in_handler _ _ _ _ _ _ _ Hrun Hstep).
  - intros q0 q' pc'. apply panic_leaves_worker.
  - intros s i Hlive Hi. eexists. split; [| split; [| split]].
    + exact (step_panic s i _ v Hlive Hi).
    + reflexivity.
    + cbn [sys_pool]. apply list_lookup_insert_eq. by eapply lookup_lt_Some.
    + intros s''. by apply crashed_is_final.
Qed.

Lemma handler_panic_is_not_caught_witness :
  let job := new_job 1 2 3 "panic" ∅ 3 in
  let o := processJob 10 sample_queue job in
  o_exit o = ExitPanic "boom" /\
  o_job o = mark_processing 10 job /\
  Status (o_job o) = StatusProcessing.
Proof.
  pose proof (handler_panic_is_not_caught 10 sample_queue
                (new_job 1 2 3 "panic" ∅ 3) handler_panic "boom" 0
                eq_refl eq_refl) as [(Hexit & Hjob & Hstatus & _) _].
  exact (conj Hexit (conj Hjob Hstatus)).
Defined.

(** * Further properties of the queue *)

(** ** What a dispatch does and does not do *)

(** X1: a dispatch whose handler returns [nil] completes the job in one
    go: the job is marked completed, [UpdatedAt] is the time the handler
    returned, the attempt is counted, the processed counter is incremented
    and the failed and retried counters are left alone; the worker does not
    sleep, the job is not sent back and its life ends with this dispatch.
    An error message left by an earlier failure stays on the record. *)
Theorem successful_dispatch (d : Dispatch) (ds : list Dispatch) (job : Job)
    (h : JobHandler) (el : Duration) :
  handlers (d_queue d) !! Type_ job = Some h ->
  h (mark_processing (d_now d) job) = mkRun (HReturn None) el ->
  let o := processJob (d_now d) (d_queue d) job in
  Status (o_job o) = StatusCompleted /\
  UpdatedAt (o_job o) = d_now d + el /\
  Attempts (o_job o) = incr (Attempts job) /\
  Error (o_job o) = Error job /\
  Processed (stats (o_queue o)) = incr (Processed (stats (d_queue d))) /\
  Failed (stats (o_queue o)) = Failed (stats (d_queue d)) /\
  Retried (stats (o_queue o)) = Retried (stats (d_queue d)) /\
  jobs (o_queue o) = jobs (d_queue d) /\
  o_slept o = None /\
  o_exit o = ExitReturn /\
  lifecycle (d :: ds) job = [(d, o)].
Proof.
  intros Hsome Hrun o.
  assert (Ho : o = processJob (d_now d) (d_queue d) job) by reflexivity.
  rewrite (processJob_success _ _ _ h el Hsome Hrun) in Ho.
  cbn [lifecycle]. fold o. rewrite Ho. repeat split.
Qed.

Lemma successful_dispatch_witness :
  let d := mkDispatch 1000 sample_queue in
  let job := new_job 1 2 3 "send_email" (email_payload "a@b.c" "hello" "") 3 in
  let o := processJob 1000 sample_queue job in
  Status (o_job o) = StatusCompleted /\
  UpdatedAt (o_job o) = 1000 + 100 * Millisecond /\
  Attempts (o_job o) = incr 0 /\
  Error (o_job o) = "" /\
  Processed (stats (o_queue o)) = incr (Processed (stats sample_queue)) /\
  Failed (stats (o_queue o)) = Failed (stats sample_queue) /\
  Retried (stats (o_queue o)) = Retried (stats sample_queue) /\
  jobs (o_queue o) = jobs sample_queue /\
  o_slept o = None /\
  o_exit o = ExitReturn /\
  lifecycle [d; d] job = [(d, o)].
Proof.
  apply (successful_dispatch (mkDispatch 1000 sample_queue)
           [mkDispatch 1000 sample_queue]
           (new_job 1 2 3 "send_email" (email_payload "a@b.c" "hello" "") 3)
           send_email (100 * Millisecond));
    [reflexivity | vm_compute; reflexivity].
Defined.

(** X2: every call of [processJob] that returns has incremented exactly
    one of the processed, failed and retried counters, by one; a call that
    a panic leaves has incremented none. *)
Theorem dispatch_counts_once (now : Time) (q : Queue) (job : Job) :
  let o := processJob now q job in
  let r := (mkDispatch now q, o) in
  match o_exit o with
  | ExitReturn =>
      added Processed r + added Failed r + added Retried r = 1 /\
      0 <= added Processed r /\ 0 <= added Failed r /\ 0 <= added Retried r
  | ExitPanic _ =>
      added Processed r = 0 /\ added Failed r = 0 /\ added Retried r = 0
  end.
Proof.
  cbv zeta. unfold processJob, no_handler, settle, requeue.
  repeat case_match; simplify_eq; cbn [o_exit]; read_stats;
    cbn [d_queue]; rewrite ?added_incr, ?added_same; repeat split; lia.
Qed.

(** X3: [processJob] never touches the identity of a job: its ID, type,
    payload, maxRetry and creation time come out as they went in, on every
    path, and its attempts counter is incremented exactly once. *)
Theorem dispatch_preserves_identity (now : Time) (q : Queue) (job : Job) :
  let o := processJob now q job in
  ID (o_job o) = ID job /\
  Type_ (o_job o) = Type_ job /\
  Payload (o_job o) = Payload job /\
  MaxRetry (o_job o) = MaxRetry job /\
  CreatedAt (o_job o) = CreatedAt job /\
  Attempts (o_job o) = incr (Attempts job).
Proof.
  cbv zeta. unfold processJob, no_handler, settle, requeue.
  repeat case_match; simplify_eq; repeat split.
Qed.

(** X4: a job leaves [processJob] marked retrying only while its attempts
    are below maxRetry, and never leaves it pending. When it was sent back
    to the channel it is marked retrying, it is the last job of the buffer,
    behind all the jobs that were waiting, and the call returned; a job
    that ends completed or failed was not sent back. *)
Theorem requeued_job_goes_last (now : Time) (q : Queue) (job : Job) :
  let o := processJob now q job in
  Status (o_job o) <> StatusPending /\
  (Status (o_job o) = StatusRetrying ->
   Attempts (o_job o) < MaxRetry (o_job o)) /\
  (o_requeued o = true ->
   Status (o_job o) = StatusRetrying /\
   buf (jobs (o_queue o)) = buf (jobs q) ++ [o_job o] /\
   o_exit o = ExitReturn) /\
  (Status (o_job o) = StatusCompleted \/ Status (o_job o) = StatusFailed ->
   o_requeued o = false /\ jobs (o_queue o) = jobs q).
Proof.
  cbv zeta. unfold processJob, no_handler, settle, requeue, try_send.
  repeat case_match; simplify_eq;
    repeat match goal with
           | H : (_ <? _) = true |- _ => apply Z.ltb_lt in H
           end;
    cbn [o_job o_requeued o_queue o_exit Status set_Status set_Error
         set_UpdatedAt set_Attempts mark_processing Attempts MaxRetry jobs
         inc_Active inc_Failed inc_Retried inc_Processed dec_Active set_stats
         set_jobs buf] in *;
    (split; [discriminate |]);
    (split; [intros ?; try discriminate; lia |]);
    (split; [intros ?; try discriminate; repeat split |]);
    (intros [? | ?]; try discriminate; repeat split).
Qed.

Lemma requeued_job_goes_last_witness :
  let job := new_job 1 2 3 "always_fail" ∅ 3 in
  let o := processJob 10 sample_queue job in
  Status (o_job o) = StatusRetrying /\
  buf (jobs (o_queue o)) = buf (jobs sample_queue) ++ [o_job o] /\
  o_exit o = ExitReturn.
Proof.
  pose proof (requeued_job_goes_last 10 sample_queue
                (new_job 1 2 3 "always_fail" ∅ 3)) as (_ & _ & Hre & _).
  apply Hre. reflexivity.
Defined.

(** ** Stopping the queue *)

(** X6: [Stop] is final. It cancels the context and closes the channel,
    keeping the buffered jobs, the handlers and the counters as they were;
    from then on every [Push] panics, whatever its arguments and however
    empty the buffer, and a second [Stop] panics too. *)
Theorem Stop_is_final (q q' : Queue) :
  Stop q = Normal q' ->
  cancelled q' = true /\
  closed (jobs q') = true /\
  buf (jobs q') = buf (jobs q) /\
  handlers q' = handlers q /\
  stats q' = stats q /\
  (forall t_id t_created t_updated jobType payload maxRetry,
     Push t_id t_created t_updated jobType payload maxRetry q'
       = Panic "send on closed channel") /\
  Stop q' = Panic "close of closed channel".
Proof.
  unfold Stop. destruct (closed (jobs q)) eqn:Hclosed; [discriminate |].
  intros [= <-]. cbn [cancelled jobs closed buf handlers stats].
  repeat split.
Qed.

Lemma Stop_is_final_witness :
  cancelled stopped_queue = true /\
  closed (jobs stopped_queue) = true /\
  buf (jobs stopped_queue) = buf (jobs sample_queue) /\
  handlers stopped_queue = handlers sample_queue /\
  stats stopped_queue = stats sample_queue /\
  (forall t_id t_created t_updated jobType payload maxRetry,
     Push t_id t_created t_updated jobType payload maxRetry stopped_queue
       = Panic "send on closed channel") /\
  Stop stopped_queue = Panic "close of closed channel".
Proof.
  apply (Stop_is_final sample_queue stopped_queue). reflexivity.
Defined.

(** X7: stopping the queue while a worker sleeps in the backoff of a retry
    ends the program. Once the channel is closed the only step of that
    worker is the resubmission that panics, with the job and the queue as
    they were; so from any live state with a sleeping worker, a [Stop]
    followed by the two steps of that worker reaches a state where the
    program has crashed and the worker is gone. *)
Theorem Stop_during_backoff_crashes (s : System) (i : nat) (job : Job)
    (delay : Duration) (q' : Queue) :
  sys_crashed s = false ->
  sys_pool s !! i = Some (WSleeping job delay) ->
  Stop (sys_queue s) = Normal q' ->
  (forall q2 pc2, worker_step q' (WSleeping job delay) q2 pc2 ->
     q2 = q' /\ pc2 = WLeaving job (ExitPanic "send on closed channel")) /\
  rtc step s (mkSystem (dec_Active q') (<[i := WStopped]> (sys_pool s)) true).
Proof.
  intros Hlive Hi Hstop.
  assert (Hclosed : closed (jobs q') = true).
  { unfold Stop in Hstop. destruct (closed (jobs (sys_queue s)));
      [discriminate |]. injection Hstop as <-. reflexivity. }
  assert (Hreq : requeue q' job = ReqPanic "send on closed channel").
  { unfold requeue, try_send. rewrite Hclosed. reflexivity. }
  split.
  - intros q2 pc2 Hstep. inversion Hstep; subst;
      match goal with H : requeue _ _ = _ |- _ => rewrite Hreq in H end;
      simplify_eq. split; reflexivity.
  - assert (Hlt : (i < length (sys_pool s))%nat) by (by eapply lookup_lt_Some).
    eapply rtc_l; [exact (step_stop s q' Hlive Hstop) |].
    eapply rtc_l.
    { apply (step_worker (mkSystem q' (sys_pool s) false) i
               (WSleeping job delay) q'
               (WLeaving job (ExitPanic "send on closed channel")));
        [reflexivity | exact Hi | exact (ws_closed q' job delay _ Hreq)]. }
    cbn [sys_pool].
    eapply rtc_l; [| apply rtc_refl].
    pose proof (step_panic
                  (mkSystem q'
                     (<[i := WLeaving job (ExitPanic "send on closed channel")]>
                        (sys_pool s)) false)
                  i job "send on closed channel" eq_refl
                  (list_lookup_insert_eq _ _ _ Hlt)) as Hlast.
    cbn [sys_pool sys_queue] in Hlast.
    rewrite list_insert_insert_eq in Hlast. exact Hlast.
Qed.

Lemma Stop_during_backoff_crashes_witness :
  exists q',
    Stop (sys_queue backoff_state) = Normal q' /\
    rtc step backoff_state
      (mkSystem (dec_Active q')
                (<[0%nat := WStopped]> (sys_pool backoff_state)) true).
Proof.
  eexists. split; [reflexivity |].
  eapply (Stop_during_backoff_crashes backoff_state 0 backoff_job Second);
    reflexivity.
Defined.

(** ** The worker loop *)

(** X8: a worker at its [select] leaves the loop only when the context is
    cancelled or when it receives [nil] from the closed and drained
    channel. On a queue that was not stopped its only step is to take the
    oldest job of the buffer, and it has no step while the buffer is
    empty. *)
Theorem worker_exits_only_on_shutdown (q q' : Queue) (pc' : WorkerPC) :
  worker_step q WIdle q' pc' ->
  (pc' = WStopped ->
   cancelled q = true \/ (closed (jobs q) = true /\ buf (jobs q) = [])) /\
  (cancelled q = false -> closed (jobs q) = false ->
   exists job rest,
     buf (jobs q) = job :: rest /\
     pc' = WReceived job /\
     buf (jobs q') = rest /\
     stats q' = stats q).
Proof.
  intros Hstep. inversion Hstep as
    [q0 job c Hrecv | q0 Hrecv | q0 Hcancel | | | | | | | | | |]; subst.
  - split; [discriminate |]. intros _ _.
    unfold try_recv in Hrecv. destruct (buf (jobs q)) as [| j rest] eqn:Hbuf.
    + destruct (closed (jobs q)); discriminate.
    + injection Hrecv as <- <-. exists j, rest. repeat split.
  - split.
    + intros _. right. unfold try_recv in Hrecv.
      destruct (buf (jobs q')) as [| j rest]; [| discriminate].
      destruct (closed (jobs q')); [auto | discriminate].
    + intros _ Hopen. unfold try_recv in Hrecv.
      destruct (buf (jobs q')) as [| j rest]; [| discriminate].
      rewrite Hopen in Hrecv. discriminate.
  - split; [auto |]. intros Hlive. congruence.
Qed.

Lemma worker_exits_only_on_shutdown_witness :
  exists job rest,
    buf (jobs full_queue) = job :: rest /\
    WReceived (new_job 0 0 0 "noop" ∅ 3) = WReceived job /\
    buf (jobs (set_jobs
                 (mkChan (replicate 999 (new_job 0 0 0 "noop" ∅ 3)) 1000 false)
                 full_queue)) = rest /\
    stats (set_jobs
             (mkChan (replicate 999 (new_job 0 0 0 "noop" ∅ 3)) 1000 false)
             full_queue) = stats full_queue.
Proof.
  eapply (worker_exits_only_on_shutdown full_queue _ _);
    [apply ws_receive; reflexivity | reflexivity | reflexivity].
Defined.

(** ** The handler registry *)

(** X9: [RegisterHandler] overwrites: after two registrations for one
    type the queue is the one the second registration alone gives, and a
    job of that type is dispatched to the second handler. The handlers of
    the other types, the buffered jobs and the counters are untouched, and
    registrations for different types commute. *)
Theorem RegisterHandler_last_wins (jobType other : string)
    (h1 h2 : JobHandler) (q : Queue) :
  other <> jobType ->
  RegisterHandler jobType h2 (RegisterHandler jobType h1 q)
    = RegisterHandler jobType h2 q /\
  handlers (RegisterHandler jobType h2 (RegisterHandler jobType h1 q))
    !! jobType = Some h2 /\
  handlers (RegisterHandler jobType h2 q) !! other = handlers q !! other /\
  RegisterHandler jobType h1 (RegisterHandler other h2 q)
    = RegisterHandler other h2 (RegisterHandler jobType h1 q) /\
  jobs (RegisterHandler jobType h2 q) = jobs q /\
  stats (RegisterHandler jobType h2 q) = stats q.
Proof.
  intros Hne. unfold RegisterHandler. cbn [name jobs handlers workers
    cancelled stats].
  rewrite insert_insert_eq, lookup_insert_eq, (lookup_insert_ne _ _ _ _
    (not_eq_sym Hne)), (insert_insert_ne _ jobType other) by congruence.
  repeat split.
Qed.

Lemma RegisterHandler_last_wins_witness :
  RegisterHandler "noop" handler_always_fail
      (RegisterHandler "noop" handler_panic sample_queue)
    = RegisterHandler "noop" handler_always_fail sample_queue /\
  handlers (RegisterHandler "noop" handler_always_fail
              (RegisterHandler "noop" handler_panic sample_queue))
    !! "noop" = Some handler_always_fail /\
  handlers (RegisterHandler "noop" handler_always_fail sample_queue)
    !! "panic" = handlers sample_queue !! "panic" /\
  RegisterHandler "noop" handler_panic
      (RegisterHandler "panic" handler_always_fail sample_queue)
    = RegisterHandler "panic" handler_always_fail
        (RegisterHandler "noop" handler_panic sample_queue) /\
  jobs (RegisterHandler "noop" handler_always_fail sample_queue)
    = jobs sample_queue /\
  stats (RegisterHandler "noop" handler_always_fail sample_queue)
    = stats sample_queue.
Proof.
  apply (RegisterHandler_last_wins "noop" "panic" handler_panic
           handler_always_fail sample_queue).
  discriminate.
Defined.

(** ** Job identifiers *)

(** X10: the ID of a job is "job_" followed by the clock reading in
    decimal, so two jobs carry the same ID exactly when [Push] read the
    same nanosecond for both: nothing else tells them apart. *)
Theorem job_ids_collide_on_equal_clock (t1 t1' t1'' t2 t2' t2'' : Time)
    (type1 type2 : string) (payload1 payload2 : gmap string Value)
    (maxRetry1 maxRetry2 : Z) :
  ID (new_job t1 t1' t1'' type1 payload1 maxRetry1)
    = ID (new_job t2 t2' t2'' type2 payload2 maxRetry2)
  <-> t1 = t2.
Proof.
  cbn [ID new_job]. unfold generateJobID. split.
  - intros Heq. cbn in Heq. injection Heq as Heq.
    exact (pretty_Z_inj _ _ Heq).
  - intros ->. reflexivity.
Qed.

(** ** The default queue and the built-in handlers *)

(** X11: before [Init] the package-level helpers do nothing: with
    [DefaultQueue] nil, [PushWithRetry] and [Push] (and so
    [SendEmailAsync] and [ProcessImageAsync]) return the error "queue not
    initialized" and leave the variable nil, [RegisterHandler] registers
    nothing, and [GetStats] reports zeros. *)
Theorem helpers_before_Init (t_id t_created t_updated : Time)
    (jobType to subject body imagePath operation : string)
    (payload : gmap string Value) (maxRetry : Z) (handler : JobHandler) :
  Package.PushWithRetry t_id t_created t_updated jobType payload maxRetry None
    = Normal (None, Some "queue not initialized") /\
  Package.Push t_id t_created t_updated jobType payload None
    = Normal (None, Some "queue not initialized") /\
  Package.SendEmailAsync t_id t_created t_updated to subject body None
    = Normal (None, Some "queue not initialized") /\
  Package.ProcessImageAsync t_id t_created t_updated imagePath operation None
    = Normal (None, Some "queue not initialized") /\
  Package.RegisterHandler jobType handler None = None /\
  Package.GetStats None = mkStats 0 0 0 0.
Proof. repeat split. Qed.

(** X12: the built-in handlers are never in the default queue. [init]
    runs while [DefaultQueue] is nil and registers nothing, and [Init]
    installs a fresh queue whatever the variable held; so after [Init] no
    type has a handler, and the job [SendEmailAsync] enqueues is marked
    failed at its dispatch, with the error "no handler registered for job
    type: send_email", without [send_email] being called. *)
Theorem builtin_handlers_are_not_registered (workers : Z)
    (dq : option Queue) (t_id t_created t_updated now : Time)
    (to subject body : string) :
  let job := new_job t_id t_created t_updated "send_email"
                     (email_payload to subject body) 3 in
  Package.init None = None /\
  (exists q,
     Package.Init workers (Package.init dq) = Some q /\
     handlers q = ∅ /\
     exists q',
       Package.SendEmailAsync t_id t_created t_updated to subject body
         (Some q) = Normal (Some q', None) /\
       buf (jobs q') = [job] /\
       let o := processJob now q' job in
       o_invoked o = false /\
       Status (o_job o) = StatusFailed /\
       Error (o_job o) = "no handler registered for job type: send_email" /\
       Failed (stats (o_queue o)) = 1).
Proof.
  intros job. split; [reflexivity |].
  eexists. split; [reflexivity |]. split; [reflexivity |].
  eexists. split; [reflexivity |]. split; [reflexivity |].
  cbv zeta. rewrite processJob_no_handler by reflexivity.
  repeat split.
Qed.

(** X13: [send_email] succeeds exactly on the payloads that hold a
    non-empty string under "to" and under "subject"; on any other payload
    (a key missing, a value that is not a string, an empty string) it
    returns the error "missing required email parameters". The payload of
    [SendEmailAsync to subject body] passes exactly when [to] and
    [subject] are not empty. *)
Theorem send_email_requires_to_and_subject (job : Job) (to subject body : string) :
  (h_result (send_email job) = HReturn None <->
   (exists s, Payload job !! "to" = Some (VString s) /\ s <> "") /\
   (exists s, Payload job !! "subject" = Some (VString s) /\ s <> "")) /\
  (h_result (send_email job) = HReturn None \/
   h_result (send_email job)
     = HReturn (Some "missing required email parameters")) /\
  (Payload job = email_payload to subject body ->
   (h_result (send_email job) = HReturn None <-> to <> "" /\ subject <> "")).
Proof.
  assert (Hget : forall key,
    (String.eqb (payload_string job key) "" = false <->
     exists s, Payload job !! key = Some (VString s) /\ s <> "")).
  { intros key. unfold payload_string.
    destruct (Payload job !! key) as [[| s | n | b] |]; cbn;
      try (split; [discriminate | intros (s' & Hs & _); discriminate]).
    rewrite String.eqb_neq. split.
    - intros Hs. exists s. auto.
    - intros (s' & [= <-] & Hs). exact Hs. }
  assert (Hmain :
    h_result (send_email job) = HReturn None <->
    (exists s, Payload job !! "to" = Some (VString s) /\ s <> "") /\
    (exists s, Payload job !! "subject" = Some (VString s) /\ s <> "")).
  { rewrite <- !Hget. unfold send_email.
    destruct (String.eqb (payload_string job "to") "");
      destruct (String.eqb (payload_string job "subject") ""); cbn;
      (split; [intros H; try discriminate H; auto
              | intros [H1 H2]; congruence]). }
  split; [exact Hmain |]. split.
  - unfold send_email.
    destruct (String.eqb (payload_string job "to") "" ||
              String.eqb (payload_string job "subject") "")%bool; auto.
  - intros Hpay. rewrite Hmain, Hpay. unfold email_payload.
    rewrite lookup_insert_eq, lookup_insert_ne, lookup_insert_eq
      by discriminate.
    split.
    + intros [(s & [= <-] & Hs) (s' & [= <-] & Hs')]. auto.
    + intros [Hto Hsub]. split; eexists; eauto.
Qed.

Lemma send_email_requires_to_and_subject_witness :
  h_result (send_email
              (new_job 1 2 3 "send_email" (email_payload "a@b.c" "hi" "") 3))
    = HReturn None <-> "a@b.c" <> "" /\ "hi" <> "".
Proof.
  pose proof (send_email_requires_to_and_subject
                (new_job 1 2 3 "send_email" (email_payload "a@b.c" "hi" "") 3)
                "a@b.c" "hi" "") as (_ & _ & Hpay).
  apply Hpay. reflexivity.
Defined.

(** X14: [image_process] and [webhook_call] each require one field:
    [image_process] succeeds exactly when the payload holds a non-empty
    string under "image_path", [webhook_call] exactly when it holds one
    under "url"; [data_export] and [notification] succeed on every
    payload, the empty one included. *)
Theorem builtin_handlers_required_fields (job : Job) :
  (h_result (image_process job) = HReturn None <->
   exists s, Payload job !! "image_path" = Some (VString s) /\ s <> "") /\
  (h_result (webhook_call job) = HReturn None <->
   exists s, Payload job !! "url" = Some (VString s) /\ s <> "") /\
  h_result (data_export job) = HReturn None /\
  h_result (notification job) = HReturn None.
Proof.
  assert (Hget : forall key,
    (String.eqb (payload_string job key) "" = false <->
     exists s, Payload job !! key = Some (VString s) /\ s <> "")).
  { intros key. unfold payload_string.
    destruct (Payload job !! key) as [[| s | n | b] |]; cbn;
      try (split; [discriminate | intros (s' & Hs & _); discriminate]).
    rewrite String.eqb_neq. split.
    - intros Hs. exists s. auto.
    - intros (s' & [= <-] & Hs). exact Hs. }
  split; [| split; [| split; reflexivity]].
  - rewrite <- Hget. unfold image_process.
    destruct (String.eqb (payload_string job "image_path") ""); cbn;
      split; congruence.
  - rewrite <- Hget. unfold webhook_call.
    destruct (String.eqb (payload_string job "url") ""); cbn;
      split; congruence.
Qed.

(** ** The pool *)

(** X15: a queue started with no worker ([Init] with zero or a negative
    number) never processes anything: in every state it can reach the pool
    is empty and the four counters are 0; pushed jobs stay in the buffer.
    The program can still end in a panic, but only through a call of
    [Push] or [Stop] on the queue after it was stopped; and it does when,
    say, the goroutine of [PushDelay] calls [Push] after [Stop]. *)
Theorem no_workers_no_progress (nm : string) (n : Z) (s : System) :
  n <= 0 ->
  reachable nm n s ->
  (sys_pool s = [] /\
   stats (sys_queue s) = mkStats 0 0 0 0 /\
   (sys_crashed s = true -> closed (jobs (sys_queue s)) = true)) /\
  (exists s', reachable nm n s' /\ sys_crashed s' = true).
Proof.
  intros Hn Hreach. split; cycle 1.
  { set (q := mkQueue nm (mkChan [] 1000 true) ∅ n true (mkStats 0 0 0 0)).
    exists (mkSystem q (sys_pool (Init nm n)) true).
    split; [| reflexivity]. unfold reachable.
    apply (rtc_l _ _ (mkSystem q (sys_pool (Init nm n)) false)).
    - by apply (step_stop (Init nm n) q).
    - apply rtc_once.
      by apply (step_push_panic (mkSystem q (sys_pool (Init nm n)) false)
                  0 0 0 "" ∅ 0 "send on closed channel"). }
  revert s Hreach. unfold reachable. apply rtc_ind_r.
  - cbn [Init Start sys_pool sys_queue sys_crashed NewQueue workers stats app].
    replace (Z.to_nat n) with 0%nat by lia. repeat split. discriminate.
  - intros s s' _ Hstep (Hpool & Hstats & Hcrash).
    destruct Hstep as
      [s i pc q' pc' _ Hi Hw | s i job v _ Hi
      | s t1 t2 t3 jt pl mr q' err _ Hpush | s jt h _ | s q' _ Hstop
      | s t1 t2 t3 jt pl mr v _ Hpanic | s v _ Hpanic];
      cbn [sys_pool sys_queue sys_crashed].
    + rewrite Hpool in Hi. discriminate Hi.
    + rewrite Hpool in Hi. discriminate Hi.
    + unfold Push in Hpush. repeat case_match; simplify_eq;
        repeat split; auto; discriminate.
    + repeat split; auto; discriminate.
    + unfold Stop in Hstop. case_match; simplify_eq.
      repeat split; auto; discriminate.
    + repeat split; auto. intros _.
      unfold Push, try_send in Hpanic.
      destruct (closed (jobs (sys_queue s))); [reflexivity |].
      repeat case_match; discriminate.
    + repeat split; auto. intros _.
      unfold Stop in Hpanic.
      destruct (closed (jobs (sys_queue s))); [reflexivity | discriminate].
Qed.

Lemma no_workers_no_progress_witness :
  let s := mkSystem
             (set_jobs (mkChan [new_job 1 2 3 "noop" ∅ 3] 1000 false)
                       (NewQueue "default" 0)) [] false in
  (sys_pool s = [] /\
   stats (sys_queue s) = mkStats 0 0 0 0 /\
   (sys_crashed s = true -> closed (jobs (sys_queue s)) = true)) /\
  (exists s', reachable "default" 0 s' /\ sys_crashed s' = true).
Proof.
  apply (no_workers_no_progress "default" 0); [lia |].
  unfold reachable.
  eapply rtc_l; [eapply (step_push _ 1 2 3 "noop" ∅ 3); reflexivity |].
  apply rtc_refl.
Defined.

Lemma worker_step_counters (q q' : Queue) (pc pc' : WorkerPC) :
  worker_step q pc q' pc' ->
  (stats q' = stats q \/
   stats q' = stats (inc_Active q) \/ stats q' = stats (dec_Active q) \/
   stats q' = stats (inc_Processed q) \/ stats q' = stats (inc_Failed q) \/
   stats q' = stats (inc_Retried q)).
Proof.
  intros Hstep. destruct Hstep; auto.
  - match goal with H : no_handler _ _ = _ |- _ =>
      injection H as <- <- end. auto 10.
  - match goal with H : settle _ _ _ _ = _ |- _ =>
      unfold settle in H; repeat case_match; simplify_eq end; auto 10.
  - match goal with H : requeue _ _ = _ |- _ =>
      unfold requeue in H; repeat case_match; simplify_eq end; auto 10.
  - match goal with H : requeue _ _ = _ |- _ =>
      unfold requeue in H; repeat case_match; simplify_eq end; auto 10.
Qed.

(** X16: no step of the program takes anything back from the processed,
    failed and retried counters: a step leaves each of them as it was or
    increments it by one, and it changes at most one of the three. The
    calls of [Push], [RegisterHandler] and [Stop] change no counter. *)
Theorem counters_never_decrease (s s' : System) :
  step s s' ->
  let c := stats (sys_queue s) in
  let c' := stats (sys_queue s') in
  (Processed c' = Processed c \/ Processed c' = incr (Processed c)) /\
  (Failed c' = Failed c \/ Failed c' = incr (Failed c)) /\
  (Retried c' = Retried c \/ Retried c' = incr (Retried c)) /\
  ((Processed c' = Processed c /\ Failed c' = Failed c) \/
   (Processed c' = Processed c /\ Retried c' = Retried c) \/
   (Failed c' = Failed c /\ Retried c' = Retried c)) /\
  (sys_pool s' = sys_pool s -> c' = c).
Proof.
  intros Hstep.
  destruct Hstep as
    [s i pc q' pc' _ Hi Hw | s i job v _ Hi
    | s t1 t2 t3 jt pl mr q' err _ Hpush | s jt h _ | s q' _ Hstop
    | s t1 t2 t3 jt pl mr v _ Hpanic | s v _ Hpanic];
    cbn [sys_pool sys_queue]; cbv zeta.
  - assert (Hmoved : pc' <> pc).
    { intros ->. inversion Hw. }
    destruct (worker_step_counters _ _ _ _ Hw)
      as [-> | [-> | [-> | [-> | [-> | ->]]]]];
      cbn [stats inc_Active dec_Active inc_Processed inc_Failed inc_Retried
           set_stats Processed Failed Retried];
      (repeat split; auto);
      try (intros Hpool; exfalso;
           pose proof (list_lookup_insert_eq (sys_pool s) i pc'
                         (lookup_lt_Some _ _ _ Hi)) as Hnew;
           rewrite Hpool, Hi in Hnew; congruence).
  - cbn [stats dec_Active set_stats Processed Failed Retried].
    repeat split; auto.
    intros Hpool. exfalso.
    pose proof (list_lookup_insert_eq (sys_pool s) i WStopped
                  (lookup_lt_Some _ _ _ Hi)) as Hnew.
    rewrite Hpool, Hi in Hnew. congruence.
  - unfold Push in Hpush. repeat case_match; simplify_eq;
      repeat split; auto.
  - repeat split; auto.
  - unfold Stop in Hstop. case_match; simplify_eq. repeat split; auto.
  - repeat split; auto.
  - repeat split; auto.
Qed.

Lemma counters_never_decrease_witness :
  let s := mkSystem
             (inc_Active
                (RegisterHandler "always_fail" handler_always_fail
                   (NewQueue "default" 1)))
             [WInvoking (mark_processing 10
                           (new_job 1 2 3 "always_fail" ∅ 1))
                        handler_always_fail] false in
  let s' := mkSystem
              (inc_Failed (sys_queue s))
              [WLeaving (set_Status StatusFailed
                           (set_Error "always fails"
                              (mark_processing 10
                                 (new_job 1 2 3 "always_fail" ∅ 1))))
                        ExitReturn] false in
  let c := stats (sys_queue s) in
  let c' := stats (sys_queue s') in
  (Processed c' = Processed c \/ Processed c' = incr (Processed c)) /\
  (Failed c' = Failed c \/ Failed c' = incr (Failed c)) /\
  (Retried c' = Retried c \/ Retried c' = incr (Retried c)) /\
  ((Processed c' = Processed c /\ Failed c' = Failed c) \/
   (Processed c' = Processed c /\ Retried c' = Retried c) \/
   (Failed c' = Failed c /\ Retried c' = Retried c)) /\
  (sys_pool s' = sys_pool s -> c' = c).
Proof.
  intros s s'. apply (counters_never_decrease s s').
  apply (step_worker s 0%nat
           (WInvoking (mark_processing 10 (new_job 1 2 3 "always_fail" ∅ 1))
                      handler_always_fail));
    [reflexivity | reflexivity | eapply (ws_done _ _ _ 5000010); reflexivity].
Defined.

Lemma capacity_is_fixed_witness :
  cap (jobs (sys_queue crashed_state)) = 1000%nat /\
  0 <= Size (sys_queue crashed_state) <= 1000.
Proof.
  apply (capacity_is_fixed "default" 1 crashed_state).
  exact crashed_state_reachable.
Defined.

Lemma processJob_in_pool_witness :
  let s := mkSystem sample_queue
             [WIdle; WReceived (new_job 1 2 3 "flaky" ∅ 3)] false in
  let o := processJob 10 sample_queue (new_job 1 2 3 "flaky" ∅ 3) in
  rtc step s
    (match o_exit o with
     | ExitReturn => mkSystem (o_queue o) (<[1%nat := WIdle]> (sys_pool s)) false
     | ExitPanic _ => mkSystem (o_queue o) (<[1%nat := WStopped]> (sys_pool s)) true
     end).
Proof.
  apply (processJob_in_pool 10
           (mkSystem sample_queue
              [WIdle; WReceived (new_job 1 2 3 "flaky" ∅ 3)] false)
           1 (new_job 1 2 3 "flaky" ∅ 3));
    reflexivity.
Defined.

(** * Properties of the email service *)

Section EmailProperties.

Import Email.

Lemma prefix_spec (a s : string) :
  String.prefix a s = true <-> exists b, s = a +:+ b.
Proof.
  revert s. induction a as [| c a IH]; intros s.
  - split; [intros _; exists s; reflexivity | intros _; by destruct s].
  - destruct s as [| c' s]; cbn.
    + split; [discriminate | intros (b & Hb); discriminate].
    + destruct (Ascii.ascii_dec c c') as [-> | Hne].
      * rewrite IH. split; intros (b & Hb); exists b.
        -- subst s. reflexivity.
        -- change (String c' a +:+ b) with (String c' (a +:+ b)) in Hb.
           by injection Hb.
      * split; [discriminate |]. intros (b & Hb).
        change (String c a +:+ b) with (String c (a +:+ b)) in Hb.
        injection Hb as Hc _. congruence.
Qed.

Lemma Contains_unfold (s substr : string) :
  Contains s substr =
    if String.prefix substr s then true
    else match s with
         | EmptyString => false
         | String _ s' => Contains s' substr
         end.
Proof. destruct s; reflexivity. Qed.

Lemma Contains_spec (s substr : string) :
  Contains s substr = true <-> exists a b, s = a +:+ substr +:+ b.
Proof.
  split.
  - induction s as [| c s IH]; cbn [Contains].
    + destruct (String.prefix substr "") eqn:Hp; [| discriminate].
      intros _. apply prefix_spec in Hp as (b & Hb). exists "", b. exact Hb.
    + destruct (String.prefix substr (String c s)) eqn:Hp.
      * intros _. apply prefix_spec in Hp as (b & Hb). exists "", b. exact Hb.
      * intros Hc. destruct (IH Hc) as (a & b & ->).
        exists (String c a), b. reflexivity.
  - intros (a & b & ->). induction a as [| c a IH].
    + assert (Hp : String.prefix substr ("" +:+ substr +:+ b) = true)
        by (apply prefix_spec; exists b; reflexivity).
      rewrite Contains_unfold, Hp. reflexivity.
    + change (String c a +:+ substr +:+ b)
        with (String c (a +:+ substr +:+ b)).
      rewrite Contains_unfold.
      destruct (String.prefix substr (String c (a +:+ substr +:+ b)));
        [reflexivity | exact IH].
Qed.

Lemma length_append (a b : string) :
  String.length (a +:+ b) = (String.length a + String.length b)%nat.
Proof.
  induction a as [| c a IH]; [reflexivity |].
  change (String c a +:+ b) with (String c (a +:+ b)).
  change (String.length (String c (a +:+ b)))
    with (S (String.length (a +:+ b))).
  rewrite IH. reflexivity.
Qed.

(** X18: [ValidateEmail] accepts exactly the strings that hold an at sign
    and a dot, wherever they stand: every string of the shape
    local@domain.tld passes, with empty parts too, and so does one whose
    dot comes before the at sign; a string of fewer than two characters
    never passes. *)
Theorem ValidateEmail_accepts (email : string) :
  (ValidateEmail email = true <->
   (exists a b, email = a +:+ "@" +:+ b) /\
   (exists a b, email = a +:+ "." +:+ b)) /\
  (forall a b c, ValidateEmail (a +:+ "@" +:+ b +:+ "." +:+ c) = true) /\
  (forall a b c, ValidateEmail (a +:+ "." +:+ b +:+ "@" +:+ c) = true) /\
  ((String.length email < 2)%nat -> ValidateEmail email = false).
Proof.
  assert (Hiff : forall e, ValidateEmail e = true <->
            (exists a b, e = a +:+ "@" +:+ b) /\
            (exists a b, e = a +:+ "." +:+ b)).
  { intros e. unfold ValidateEmail.
    rewrite andb_true_iff, !Contains_spec. reflexivity. }
  assert (Hassoc : forall x y z : string, (x +:+ y) +:+ z = x +:+ (y +:+ z)).
  { intros x y z. induction x as [| ch x IH]; [reflexivity |].
    change ((String ch x +:+ y) +:+ z) with (String ch ((x +:+ y) +:+ z)).
    rewrite IH. reflexivity. }
  split; [apply Hiff |]. split; [| split].
  - intros a b c. apply Hiff. split.
    + exists a, (b +:+ "." +:+ c). reflexivity.
    + exists (a +:+ "@" +:+ b), c. by rewrite !Hassoc.
  - intros a b c. apply Hiff. split.
    + exists (a +:+ "." +:+ b), c. by rewrite !Hassoc.
    + exists a, (b +:+ "@" +:+ c). reflexivity.
  - intros Hshort. destruct (ValidateEmail email) eqn:Hv; [| reflexivity].
    apply Hiff in Hv as [(a & b & Hat) (a' & b' & Hdot)]. exfalso.
    assert (Hnil : forall x : string, String.length x = 0%nat -> x = "")
      by (intros [| ch x] Hx; [reflexivity | discriminate Hx]).
    pose proof (f_equal String.length Hat) as Hl1.
    pose proof (f_equal String.length Hdot) as Hl2.
    rewrite !length_append in Hl1, Hl2.
    change (String.length "@") with 1%nat in Hl1.
    change (String.length ".") with 1%nat in Hl2.
    rewrite (Hnil a), (Hnil b) in Hat by lia.
    rewrite (Hnil a'), (Hnil b') in Hdot by lia.
    rewrite Hat in Hdot. discriminate Hdot.
Qed.

Lemma ValidateEmail_accepts_witness : ValidateEmail "" = false.
Proof.
  pose proof (ValidateEmail_accepts "") as (_ & _ & _ & Hshort).
  apply Hshort. cbn. lia.
Defined.

(** *** Slices and [append] *)

Lemma elems_length (h : Heap) (sl : Slice) :
  valid h sl -> length (elems h sl) = s_len sl.
Proof.
  intros [Hlen Hfit]. unfold elems. rewrite length_take, length_drop. lia.
Qed.

(** [append] returns a slice that holds the elements of [sl] followed by
    [xs], wherever it has put them. *)
Lemma append_elems (grow : nat -> nat -> nat) (h : Heap) (sl : Slice)
    (xs : list string) :
  valid h sl ->
  elems (append grow h sl xs).1 (append grow h sl xs).2 = elems h sl ++ xs /\
  valid (append grow h sl xs).1 (append grow h sl xs).2.
Proof.
  intros [Hlen Hfit]. unfold append.
  destruct (Nat.leb_spec (s_len sl + length xs) (s_cap sl)) as [Hroom | Hfull];
    cbn [fst snd].
  - (* in place *)
    set (a := array h sl) in *.
    set (k := (s_off sl + s_len sl)%nat).
    set (a' := take k a ++ xs ++ drop (k + length xs) a).
    assert (Ha' : length a' = length a).
    { unfold a'. rewrite !length_app, length_take, length_drop. lia. }
    assert (Harr : array (<[s_arr sl := a']> h)
                     (mkSlice (s_arr sl) (s_off sl) (s_len sl + length xs)
                              (s_cap sl)) = a' \/
                   (a = [] /\ array (<[s_arr sl := a']> h)
                     (mkSlice (s_arr sl) (s_off sl) (s_len sl + length xs)
                              (s_cap sl)) = [])).
    { unfold array. cbn [s_arr].
      destruct (Nat.lt_ge_cases (s_arr sl) (length h)) as [Hin | Hout].
      - left. by rewrite list_lookup_insert_eq.
      - right. rewrite list_insert_ge by lia. unfold a, array.
        rewrite (lookup_ge_None_2 h (s_arr sl)) by lia. done. }
    destruct Harr as [Harr | [Hnil Harr]].
    + split.
      * unfold elems at 1. rewrite Harr. cbn [s_len s_off]. unfold a'.
        rewrite drop_app_le by (rewrite length_take; lia).
        rewrite app_assoc, take_app_le
          by (rewrite length_app, length_drop, length_take; lia).
        rewrite take_ge
          by (rewrite length_app, length_drop, length_take; lia).
        unfold elems. fold a. by rewrite take_drop_commute.
      * split; cbn [s_len s_cap s_off]; [exact Hroom |].
        rewrite Harr, Ha'. exact Hfit.
    + rewrite Hnil in Hfit. cbn [length] in Hfit.
      assert (length xs = 0%nat) as Hxs by lia.
      destruct xs; [| discriminate Hxs].
      split.
      * unfold elems. rewrite Harr. fold a. rewrite Hnil.
        by rewrite !drop_nil, !take_nil.
      * split; cbn [s_len s_cap s_off]; [exact Hroom |].
        rewrite Harr. cbn [length]. lia.
  - (* to a new array *)
    assert (Harr : forall n c, array (h ++ [elems h sl ++ xs
                       ++ replicate (c - n) ""]) (mkSlice (length h) 0 n c)
                     = elems h sl ++ xs ++ replicate (c - n) "").
    { intros n c. unfold array. cbn [s_arr].
      by rewrite list_lookup_middle. }
    pose proof (elems_length h sl (conj Hlen Hfit)) as Hel.
    split.
    + unfold elems at 1. rewrite Harr. cbn [s_len s_off]. rewrite drop_0.
      rewrite app_assoc, take_app_le by (rewrite length_app; lia).
      apply take_ge. rewrite length_app. lia.
    + split; cbn [s_len s_cap s_off]; [lia |].
      rewrite Harr, !length_app, length_replicate. lia.
Qed.

(** A slice keeps its elements when arrays are added to the heap. *)
Lemma elems_extended (h h' : Heap) (sl : Slice) :
  valid h sl -> h `prefix_of` h' ->
  elems h' sl = elems h sl /\ valid h' sl.
Proof.
  intros [Hlen Hfit] Hpre. unfold valid, elems, array in *.
  destruct (h !! s_arr sl) as [a |] eqn:Hlook.
  - rewrite (prefix_lookup_Some _ _ _ _ Hlook Hpre). auto.
  - cbn [default length] in Hfit.
    assert (s_len sl = 0%nat) as -> by lia.
    assert (s_cap sl = 0%nat) as -> by lia.
    assert (s_off sl = 0%nat) as -> by lia.
    rewrite !take_0. split; [reflexivity | lia].
Qed.

(** [append] to a slice that is full, or whose array was made after the
    heap [h0], leaves [h0] as it was; the slice it returns is again of
    that kind. *)
Lemma append_leaves (grow : nat -> nat -> nat) (h0 h : Heap) (sl : Slice)
    (xs : list string) :
  valid h sl ->
  s_len sl = s_cap sl \/ (length h0 <= s_arr sl)%nat ->
  h0 `prefix_of` h ->
  h0 `prefix_of` (append grow h sl xs).1 /\
  (s_len (append grow h sl xs).2 = s_cap (append grow h sl xs).2 \/
   (length h0 <= s_arr (append grow h sl xs).2)%nat).
Proof.
  intros [Hlen Hfit] Hkind Hpre. unfold append.
  destruct (Nat.leb_spec (s_len sl + length xs) (s_cap sl)) as [Hroom | Hfull];
    cbn [fst snd s_len s_cap s_arr].
  - destruct Hkind as [Hfullsl | Hnew].
    + assert (length xs = 0%nat) as Hxs by lia.
      destruct xs; [| discriminate Hxs]. cbn [length app].
      rewrite !Nat.add_0_r. split; [| left; exact Hfullsl].
      rewrite take_drop. unfold array.
      destruct (h !! s_arr sl) as [a |] eqn:Hlook.
      * by rewrite list_insert_id.
      * rewrite list_insert_ge; [exact Hpre |]. by apply lookup_ge_None.
    + split; [| right; exact Hnew].
      destruct Hpre as [t ->].
      rewrite insert_app_r_alt by exact Hnew. by apply prefix_app_r.
  - split; [by apply prefix_app_r |].
    right. by apply prefix_length.
Qed.

(** *** [Send] *)

(** What [Send] does for an email that has a To address. *)
Lemma Send_sent (grow : nat -> nat -> nat) (net : Net) (es : EmailService)
    (email : Email) (h : Heap) (calls : list SendMailCall) :
  s_len (To email) <> 0%nat ->
  valid h (To email) ->
  exists call h',
    Send grow net es email h calls = (net calls call, h', calls ++ [call]) /\
    sm_from call = FromEmail (config es) /\
    sm_msg call = buildMessage es h email /\
    sm_to call =
      elems h (To email) ++ elems h (CC email) ++
      elems (append grow h (To email) (elems h (CC email))).1 (BCC email) /\
    (s_len (To email) = s_cap (To email) -> valid h (BCC email) ->
     sm_to call =
       elems h (To email) ++ elems h (CC email) ++ elems h (BCC email) /\
     h `prefix_of` h').
Proof.
  intros Hto HvTo. unfold Send.
  destruct (Nat.eqb_spec (s_len (To email)) 0) as [| _]; [contradiction |].
  destruct (append grow h (To email) (elems h (CC email))) as [h1 r1] eqn:H1.
  destruct (append grow h1 r1 (elems h1 (BCC email))) as [h2 r2] eqn:H2.
  pose proof (append_elems grow h (To email) (elems h (CC email)) HvTo)
    as [He1 Hv1].
  rewrite H1 in He1, Hv1. cbn [fst snd] in He1, Hv1.
  pose proof (append_elems grow h1 r1 (elems h1 (BCC email)) Hv1) as [He2 _].
  rewrite H2 in He2. cbn [fst snd] in He2.
  eexists _, h2. split; [reflexivity |]. cbn [sm_from sm_msg sm_to fst].
  split; [reflexivity |]. split; [reflexivity |].
  split; [by rewrite He2, He1, <- app_assoc |].
  intros Hfull HvB.
  pose proof (append_leaves grow h h (To email) (elems h (CC email)) HvTo
                (or_introl Hfull) (reflexivity h)) as [Hp1 Hk1].
  rewrite H1 in Hp1, Hk1. cbn [fst snd] in Hp1, Hk1.
  pose proof (append_leaves grow h h1 r1 (elems h1 (BCC email)) Hv1 Hk1 Hp1)
    as [Hp2 _].
  rewrite H2 in Hp2. cbn [fst] in Hp2.
  split; [| exact Hp2].
  rewrite He2, He1, <- app_assoc.
  by rewrite (proj1 (elems_extended h h1 (BCC email) HvB Hp1)).
Qed.

(** X19: [Send] refuses an email without a To address before it touches
    the network, even when the email has CC or BCC addresses. An email
    with a To address makes exactly one SMTP call, from the configured
    sender, with the message built from the email as it was, and [Send]
    returns what the network answered. The call goes to the addresses of
    To, then those of CC, then those the BCC slice holds once CC has been
    appended to To. When the To slice is full (as one made by a slice
    literal is) these are the BCC addresses of the email, and the arrays
    of the caller are left alone. When To has capacity to spare and BCC
    is cut from the same array, [append] writes CC over BCC: for
    [all := {a, x, y}; To: all[:1], CC: {c}, BCC: all[1:2]] the call goes
    to a, c and c, and x never gets the email. *)
Theorem Send_needs_a_To_address (grow : nat -> nat -> nat) (net : Net)
    (es : EmailService) (email : Email) (h : Heap)
    (calls : list SendMailCall) :
  (s_len (To email) = 0%nat ->
   Send grow net es email h calls
     = (Some "no recipients specified", h, calls)) /\
  (s_len (To email) <> 0%nat -> valid h (To email) ->
   exists call h',
     Send grow net es email h calls = (net calls call, h', calls ++ [call]) /\
     sm_from call = FromEmail (config es) /\
     sm_msg call = buildMessage es h email /\
     sm_to call =
       elems h (To email) ++ elems h (CC email) ++
       elems (append grow h (To email) (elems h (CC email))).1 (BCC email) /\
     (s_len (To email) = s_cap (To email) -> valid h (BCC email) ->
      sm_to call =
        elems h (To email) ++ elems h (CC email) ++ elems h (BCC email) /\
      h `prefix_of` h')) /\
  (exists call h',
     Send grow net es shared_email shared_heap calls
       = (net calls call, h', calls ++ [call]) /\
     elems shared_heap (BCC shared_email) = ["x@example.com"] /\
     sm_to call = ["a@example.com"; "c@example.com"; "c@example.com"] /\
     elems h' (BCC shared_email) = ["c@example.com"]).
Proof.
  split; [| split].
  - intros Hto. unfold Send. rewrite Hto. reflexivity.
  - apply Send_sent.
  - eexists _, _. split; [reflexivity |]. repeat split.
Qed.

Lemma Send_needs_a_To_address_witness :
  Send doubling second_call_fails sample_service email_without_To
       sample_heap []
    = (Some "no recipients specified", sample_heap, []) /\
  exists call h',
    Send doubling second_call_fails sample_service (sample_email 0)
         sample_heap []
      = (second_call_fails [] call, h', [] ++ [call]) /\
    sm_to call = ["a@example.com"; "audit@example.com"] /\
    sample_heap `prefix_of` h'.
Proof.
  pose proof (Send_needs_a_To_address doubling second_call_fails
                sample_service email_without_To sample_heap [])
    as (Hnone & _ & _).
  pose proof (Send_needs_a_To_address doubling second_call_fails
                sample_service (sample_email 0) sample_heap [])
    as (_ & Hsome & _).
  split; [apply Hnone; reflexivity |].
  destruct Hsome as (call & h' & Hsend & _ & _ & _ & Hfull).
  - discriminate.
  - split; cbn; lia.
  - destruct Hfull as [Hto Hpre]; [reflexivity | split; cbn; lia |].
    exists call, h'. split; [exact Hsend | split; [exact Hto | exact Hpre]].
Defined.

Lemma send_each_app (grow : nat -> nat -> nat) (net : Net)
    (es : EmailService) (pre post : list Email) (h : Heap)
    (calls : list SendMailCall) :
  send_each grow net es (pre ++ post) h calls =
    match send_each grow net es pre h calls with
    | (None, h1, calls1) => send_each grow net es post h1 calls1
    | failed => failed
    end.
Proof.
  revert h calls.
  induction pre as [| e pre IH]; intros h calls; cbn [app send_each].
  - reflexivity.
  - destruct (Send grow net es e h calls) as [[[err |] h1] calls1];
      [reflexivity | apply IH].
Qed.

(** X20: [SendBulk] stops at the first email that fails: when the emails
    before it were sent and [Send] fails on it, [SendBulk] returns that
    error, the SMTP calls made are those of the emails up to it, and the
    emails after it are not attempted, whatever they are. Without a
    service ([DefaultEmailService] nil) nothing is attempted at all. *)
Theorem SendBulk_stops_at_first_failure (grow : nat -> nat -> nat)
    (net : Net) (es : EmailService) (pre post : list Email) (email : Email)
    (h h1 h2 : Heap) (calls calls1 calls2 : list SendMailCall)
    (err : string) :
  SendBulk grow net (Some es) pre h calls = (None, h1, calls1) ->
  Send grow net es email h1 calls1 = (Some err, h2, calls2) ->
  SendBulk grow net (Some es) (pre ++ email :: post) h calls
    = (Some err, h2, calls2) /\
  (length calls2 <= length calls1 + 1)%nat /\
  SendBulk grow net None (pre ++ email :: post) h calls
    = (Some "email service not initialized", h, calls).
Proof.
  cbn [SendBulk]. intros Hpre Hfail.
  rewrite send_each_app, Hpre. cbn [send_each]. rewrite Hfail.
  split; [reflexivity |]. split; [| reflexivity].
  unfold Send in Hfail. destruct (s_len (To email) =? 0)%nat.
  - injection Hfail as _ _ <-. lia.
  - destruct (append grow h1 (To email) (elems h1 (CC email))) as [h3 r3].
    destruct (append grow h3 r3 (elems h3 (BCC email))) as [h4 r4].
    injection Hfail as _ _ <-. rewrite length_app. cbn. lia.
Qed.

Lemma SendBulk_stops_at_first_failure_witness :
  SendBulk doubling second_call_fails (Some sample_service)
           ([sample_email 0] ++ sample_email 1 :: [sample_email 2])
           sample_heap []
  = (Some "connection refused",
     (Send doubling second_call_fails sample_service (sample_email 1)
           (Send doubling second_call_fails sample_service (sample_email 0)
                 sample_heap []).1.2
           (Send doubling second_call_fails sample_service (sample_email 0)
                 sample_heap []).2).1.2,
     (Send doubling second_call_fails sample_service (sample_email 1)
           (Send doubling second_call_fails sample_service (sample_email 0)
                 sample_heap []).1.2
           (Send doubling second_call_fails sample_service (sample_email 0)
                 sample_heap []).2).2).
Proof.
  eapply (SendBulk_stops_at_first_failure doubling second_call_fails
            sample_service [sample_email 0] [sample_email 2]
            (sample_email 1) sample_heap);
    reflexivity.
Defined.

(** X21: when [SendBulk] returns [nil] there was a service, every email
    had a To address, and exactly one SMTP call was made for each email.
    When the To slice of every email is full (as one made by a slice
    literal is), the calls went, in the order of the list, to the To, CC
    and BCC addresses the emails had when [SendBulk] was called, and the
    arrays of the caller are left alone. *)
Theorem SendBulk_success_sends_all (grow : nat -> nat -> nat) (net : Net)
    (service : option EmailService) (emails : list Email)
    (h h' : Heap) (calls calls' : list SendMailCall) :
  SendBulk grow net service emails h calls = (None, h', calls') ->
  is_Some service /\
  Forall (fun e => s_len (To e) <> 0%nat) emails /\
  exists sent,
    calls' = calls ++ sent /\
    length sent = length emails /\
    (Forall (fun e => valid h (To e) /\ valid h (CC e) /\ valid h (BCC e) /\
                      s_len (To e) = s_cap (To e)) emails ->
     map sm_to sent
       = map (fun e => elems h (To e) ++ elems h (CC e) ++ elems h (BCC e))
             emails /\
     h `prefix_of` h').
Proof.
  destruct service as [es |]; cbn [SendBulk]; [| discriminate].
  intros Hall. split; [by eexists |].
  assert (Hgen : forall h1 calls1,
            send_each grow net es emails h1 calls1 = (None, h', calls') ->
            Forall (fun e => s_len (To e) <> 0%nat) emails /\
            exists sent,
              calls' = calls1 ++ sent /\
              length sent = length emails /\
              (h `prefix_of` h1 ->
               Forall (fun e => valid h (To e) /\ valid h (CC e) /\
                                valid h (BCC e) /\
                                s_len (To e) = s_cap (To e)) emails ->
               map sm_to sent
                 = map (fun e => elems h (To e) ++ elems h (CC e)
                                 ++ elems h (BCC e)) emails /\
               h `prefix_of` h')).
  { clear Hall calls.
    induction emails as [| e emails IH]; intros h1 calls1 Hall.
    - cbn in Hall. injection Hall as <- <-. split; [constructor |].
      exists []. rewrite app_nil_r. repeat split. done.
    - cbn [send_each] in Hall.
      destruct (Nat.eq_dec (s_len (To e)) 0%nat) as [Hzero | Hto].
      { unfold Send in Hall. rewrite Hzero in Hall. discriminate Hall. }
      destruct (Send grow net es e h1 calls1) as [[[err |] h2] calls2] eqn:Hsend;
        [discriminate Hall |].
      destruct (IH h2 calls2 Hall) as (Hrest & sent & -> & Hlen & Hto_rest).
      split; [constructor; assumption |].
      assert (Hcalls : exists call, calls2 = calls1 ++ [call] /\
                (h `prefix_of` h1 -> valid h (To e) -> valid h (CC e) ->
                 valid h (BCC e) -> s_len (To e) = s_cap (To e) ->
                 sm_to call = elems h (To e) ++ elems h (CC e)
                              ++ elems h (BCC e) /\
                 h `prefix_of` h2)).
      { pose proof Hsend as Hsend'. unfold Send in Hsend'.
        destruct (Nat.eqb_spec (s_len (To e)) 0) as [| _]; [contradiction |].
        destruct (append grow h1 (To e) (elems h1 (CC e))) as [h3 r3] eqn:H3.
        destruct (append grow h3 r3 (elems h3 (BCC e))) as [h4 r4] eqn:H4.
        injection Hsend' as _ <- <-.
        eexists. split; [reflexivity |].
        intros Hpre HvTo HvCC HvBCC Hfull.
        destruct (elems_extended h h1 (To e) HvTo Hpre) as [HeTo HvTo1].
        destruct (elems_extended h h1 (CC e) HvCC Hpre) as [HeCC _].
        destruct (elems_extended h h1 (BCC e) HvBCC Hpre) as [HeBCC HvBCC1].
        destruct (Send_sent grow net es e h1 calls1 Hto HvTo1)
          as (call & h5 & Hsent & _ & _ & _ & Hfull1).
        destruct (Hfull1 Hfull HvBCC1) as [Hrcpt Hpre5].
        unfold Send in Hsent.
        destruct (Nat.eqb_spec (s_len (To e)) 0) as [| _]; [contradiction |].
        rewrite H3, H4 in Hsent. injection Hsent as _ <- Hcall.
        apply app_inj_tail in Hcall as [_ <-].
        cbn [sm_to] in Hrcpt. cbn [sm_to].
        split; [by rewrite Hrcpt, HeTo, HeCC, HeBCC | by etrans]. }
      destruct Hcalls as (call & -> & Hcall).
      exists (call :: sent). split; [by rewrite <- app_assoc |].
      split; [cbn [length]; lia |].
      intros Hpre Hvalid. apply Forall_cons in Hvalid
        as [(HvTo & HvCC & HvBCC & Hfull) Hvalid].
      destruct (Hcall Hpre HvTo HvCC HvBCC Hfull) as [Hrcpt Hpre2].
      destruct (Hto_rest Hpre2 Hvalid) as [Hmap Hpre'].
      split; [| exact Hpre']. cbn [map]. by rewrite Hrcpt, Hmap. }
  destruct (Hgen h calls Hall) as (Hto & sent & Hcalls & Hlen & Hrcpt).
  split; [exact Hto |]. exists sent. split; [exact Hcalls |].
  split; [exact Hlen |]. by apply Hrcpt.
Qed.

Lemma SendBulk_success_sends_all_witness :
  let r := SendBulk doubling second_call_fails (Some sample_service)
                    [sample_email 0] sample_heap [] in
  is_Some (Some sample_service) /\
  Forall (fun e => s_len (To e) <> 0%nat) [sample_email 0] /\
  exists sent,
    r.2 = [] ++ sent /\
    length sent = length [sample_email 0] /\
    (Forall (fun e => valid sample_heap (To e) /\ valid sample_heap (CC e) /\
                      valid sample_heap (BCC e) /\
                      s_len (To e) = s_cap (To e)) [sample_email 0] ->
     map sm_to sent
       = map (fun e => elems sample_heap (To e) ++ elems sample_heap (CC e)
                       ++ elems sample_heap (BCC e)) [sample_email 0] /\
     sample_heap `prefix_of` r.1.2).
Proof.
  intros r.
  apply (SendBulk_success_sends_all doubling second_call_fails
           (Some sample_service) [sample_email 0] sample_heap r.1.2 [] r.2).
  reflexivity.
Defined.

End EmailProperties.
